(** * Conway's Game of Life (src/index.js): a shallow embedding

    The script keeps one global [state] object, a collection of DOM cells
    and draws pseudo-random numbers.  All three are threaded explicitly
    through the functions below as a [World].  The two cell tables are
    JavaScript objects keyed by the strings [`${row}_${col}`]; they are
    modelled as finite maps over strings, and the key arithmetic of
    [countNeighbors] and [evolve] is carried out on the rendered keys, as
    in the script. *)

From Stdlib Require Import ZArith QArith Lia Lqa Ascii.
From stdpp Require Import gmap strings list fin_maps pretty.

Local Open Scope Z_scope.

(** ** JavaScript numbers, as far as the script meets them *)

(** Grid arithmetic is integer arithmetic; the only other number it can
    produce is [NaN] (from [Number] on a string that is no numeral, or
    from subtracting [undefined]).  The numbers of the script are
    doubles: an [Int z] stands for the double of that value, which exists
    for every [z] up to 2^53 in magnitude, and the doubles that are not
    integers, and the infinite ones, have no counterpart here.  Only the
    two numbers read from the input fields can be such doubles. *)
Inductive num : Type :=
  | NaN
  | Int (z : Z).

Global Instance num_eq_dec : EqDecision num.
Proof. solve_decision. Defined.

(** [x + k] for an integer literal or constant [k]. *)
Definition num_add (x : num) (k : Z) : num :=
  match x with NaN => NaN | Int z => Int (z + k) end.

(** [x % k]: the remainder takes the sign of the dividend ([Z.rem]);
    [x % 0] is [NaN]. *)
Definition num_rem (x : num) (k : Z) : num :=
  match x with
  | NaN => NaN
  | Int z => if decide (k = 0) then NaN else Int (Z.rem z k)
  end.

(** Relational operators: every comparison with [NaN] is false. *)
Definition num_gt (x : num) (k : Z) : bool :=
  match x with NaN => false | Int z => bool_decide (k < z) end.
Definition num_lt (x : num) (k : Z) : bool :=
  match x with NaN => false | Int z => bool_decide (z < k) end.
Definition num_strict_eq (x : num) (k : Z) : bool :=
  match x with NaN => false | Int z => bool_decide (z = k) end.

(** Truthiness of a number: [0] and [NaN] are falsy. *)
Definition truthy (x : num) : bool :=
  match x with NaN => false | Int z => negb (bool_decide (z = 0)) end.

(** Number to string, as done by a template literal. *)
Definition num_to_string (x : num) : string :=
  match x with NaN => "NaN" | Int z => pretty z end.

(** ** Strings: the regular expression, [split] and [Number] *)

Fixpoint string_forallb (p : ascii → bool) (s : string) : bool :=
  match s with
  | EmptyString => true
  | String a s' => p a && string_forallb p s'
  end.

Fixpoint string_existsb (p : ascii → bool) (s : string) : bool :=
  match s with
  | EmptyString => false
  | String a s' => p a || string_existsb p s'
  end.

Definition is_digit (a : ascii) : bool :=
  match Ascii.is_nat a with Some _ => true | None => false end.

Definition digit_value (a : ascii) : Z :=
  match Ascii.is_nat a with Some d => Z.of_nat d | None => 0 end.

(** [/[0-9]+/.test(value)]: the pattern carries no anchors, so it matches
    as soon as one character of [value] is a digit. *)
Definition digits_regex_test (value : string) : bool :=
  string_existsb is_digit value.

(** What a digit-only check would accept: [/^[0-9]+$/]. *)
Definition digit_only (value : string) : bool :=
  match value with
  | EmptyString => false
  | _ => string_forallb is_digit value
  end.

(** [s.split(sep)] for a one-character separator. *)
Fixpoint split (sep : ascii) (s : string) : list string :=
  match s with
  | EmptyString => [EmptyString]
  | String a s' =>
      if decide (a = sep) then EmptyString :: split sep s'
      else match split sep s' with
           | [] => [String a EmptyString]
           | w :: ws => String a w :: ws
           end
  end.

Fixpoint trim_start (s : string) : string :=
  match s with
  | EmptyString => EmptyString
  | String a s' => if Ascii.is_space a then trim_start s' else s
  end.

Fixpoint trim_end (s : string) : string :=
  match s with
  | EmptyString => EmptyString
  | String a s' =>
      match trim_end s' with
      | EmptyString => if Ascii.is_space a then EmptyString else String a EmptyString
      | t => String a t
      end
  end.

(** Value of a run of decimal digits read left to right; [None] when some
    character is not a digit. *)
Fixpoint digits_value (acc : Z) (s : string) : option Z :=
  match s with
  | EmptyString => Some acc
  | String a s' =>
      if is_digit a then digits_value (10 * acc + digit_value a) s' else None
  end.

Definition unsigned_decimal (s : string) : option Z :=
  match s with
  | EmptyString => None
  | _ => digits_value 0 s
  end.

(** [Number(s)] on a string: surrounding white space is dropped, the
    empty string is [0], an optionally signed run of decimal digits is its
    value, and a string that is no numeral is [NaN].  This is what the
    script computes on the keys of the tables and on every string that is
    no numeral, and on runs of digits as long as the value is at most
    2^53, beyond which the script rounds to the nearest double.  The other
    numerals of JavaScript (a fraction, an exponent, a radix prefix,
    [Infinity]) are read by the script and are [NaN] here: after such a
    value was typed into a field, the number stored by the script is not
    the one of this model.  The statements below that speak of a stored
    chance or speed take it from [state], not from [Number]. *)
Definition Number (s : string) : num :=
  match trim_end (trim_start s) with
  | EmptyString => Int 0
  | String a r as t =>
      if decide (a = "-"%char) then
        match unsigned_decimal r with Some v => Int (- v) | None => NaN end
      else if decide (a = "+"%char) then
        match unsigned_decimal r with Some v => Int v | None => NaN end
      else
        match unsigned_decimal t with Some v => Int v | None => NaN end
  end.

(** [Number(x)] where [x] is an array element that may be missing:
    [Number(undefined)] is [NaN]. *)
Definition Number_opt (x : option string) : num :=
  match x with Some s => Number s | None => NaN end.

(** The template literal [`${a}_${b}`]. *)
Definition cellIdOf (a b : num) : string :=
  num_to_string a +:+ "_" +:+ num_to_string b.

(** The key of the cell in row [i] and column [j], as [initializeUniverse]
    builds it from its loop counters. *)
Definition cellId (i j : Z) : string := cellIdOf (Int i) (Int j).

(** ** Constants of the script *)

Definition ROWS : Z := 30.
Definition COLS : Z := 50.
Definition CELL : Z := 20.
Definition MAX_ALIVE_NEIGHBORS : Z := 3.
Definition MIN_ALIVE_NEIGHBORS : Z := 2.
Definition LIGHTBLUE : string := "rgb(122, 215, 240)".
Definition WHITE : string := "rgb(255, 255, 255)".

(** ** The global state, the DOM cells and the world *)

(** A [div] of class [cell]: its [id] and the background colour of its
    style (the empty string on a fresh element). *)
Record Cell : Type := mkCell {
  id : string;
  backgroundColor : string
}.

(** The object [state]. *)
Record State : Type := mkState {
  internalN : Z;
  generation : Z;
  isProgressing : bool;
  chanceToBeLivingCell : num;
  currentCellState : gmap string Z;
  nextCellState : gmap string Z;
  progressionSpeed : num
}.

(** [state], the live collection [document.getElementsByClassName('cell')]
    in document order, and the number of calls made to [Math.random]. *)
Record World : Type := mkWorld {
  state : State;
  cells : list Cell;
  randomCalls : nat
}.

Definition set_internalN (x : Z) (st : State) : State :=
  mkState x (generation st) (isProgressing st) (chanceToBeLivingCell st)
          (currentCellState st) (nextCellState st) (progressionSpeed st).
Definition set_generation (x : Z) (st : State) : State :=
  mkState (internalN st) x (isProgressing st) (chanceToBeLivingCell st)
          (currentCellState st) (nextCellState st) (progressionSpeed st).
Definition set_isProgressing (x : bool) (st : State) : State :=
  mkState (internalN st) (generation st) x (chanceToBeLivingCell st)
          (currentCellState st) (nextCellState st) (progressionSpeed st).
Definition set_chanceToBeLivingCell (x : num) (st : State) : State :=
  mkState (internalN st) (generation st) (isProgressing st) x
          (currentCellState st) (nextCellState st) (progressionSpeed st).
Definition set_currentCellState (x : gmap string Z) (st : State) : State :=
  mkState (internalN st) (generation st) (isProgressing st)
          (chanceToBeLivingCell st) x (nextCellState st) (progressionSpeed st).
Definition set_nextCellState (x : gmap string Z) (st : State) : State :=
  mkState (internalN st) (generation st) (isProgressing st)
          (chanceToBeLivingCell st) (currentCellState st) x (progressionSpeed st).
Definition set_progressionSpeed (x : num) (st : State) : State :=
  mkState (internalN st) (generation st) (isProgressing st)
          (chanceToBeLivingCell st) (currentCellState st) (nextCellState st) x.

Definition set_state (st : State) (w : World) : World :=
  mkWorld st (cells w) (randomCalls w).

(** [for (let i = from; i < from + n; i++) body] over a threaded value. *)
Definition for_range {A : Type} (from n : Z) (body : Z → A → A) (a : A) : A :=
  foldl (λ acc i, body i acc) a (seqZ from n).

(** ** The input fields *)

Definition speedProgressionInput_onkeyup (value : string) (st : State) : State :=
  if digits_regex_test value then set_progressionSpeed (Number value) st else st.

Definition percentCellIsAliveInput_onkeyup (value : string) (st : State) : State :=
  if digits_regex_test value then set_chanceToBeLivingCell (Number value) st else st.

(** ** initializeUniverse *)

(** [Math.random() * (100 - 1) + 1 < chance] for a draw [u] of
    [Math.random], in exact rational arithmetic.  The script rounds the
    product and the sum to doubles, which can change the outcome only
    when [u * 99 + 1] lies within a rounding error of the chance; the
    statements below use the comparison where rounding cannot change it
    (the value is at least 1 for [u ≥ 0] and below 100 for a double
    [u < 1], and one value is compared with two chances). *)
Definition draw_below (u : Q) (chance : num) : bool :=
  match chance with
  | NaN => false
  | Int z => negb (Qle_bool (inject_Z z) (u * (100 - 1) + 1)%Q)
  end.

Section Randomness.

(** The values returned by the successive calls of [Math.random]. *)
Variable random : nat → Q.

(** The body of the two loops.  [&&] evaluates [Math.random()] only when
    the chance is truthy. *)
Definition initializeCell (i j : Z) (w : World) : World :=
  let cell := mkCell (cellId i j) "" in
  let chance := chanceToBeLivingCell (state w) in
  let '(lit, calls) :=
    if truthy chance
    then (draw_below (random (randomCalls w)) chance, S (randomCalls w))
    else (false, randomCalls w) in
  let cell := if lit then mkCell (id cell) LIGHTBLUE else cell in
  let value := if decide (backgroundColor cell = LIGHTBLUE) then 1 else 0 in
  mkWorld (set_currentCellState
             (<[id cell := value]> (currentCellState (state w))) (state w))
          (cells w ++ [cell])
          calls.

Definition initializeUniverse (w : World) : World :=
  for_range 0 ROWS (λ i, for_range 0 COLS (λ j, initializeCell i j)) w.

End Randomness.

(** ** countNeighbors and evolve *)

(** [hasOwnProperty(cellId) ? table[cellId] : 0]. *)
Definition own_or_zero (table : gmap string Z) (key : string) : Z :=
  match table !! key with Some v => v | None => 0 end.

(** The sum accumulated by the two loops of [countNeighbors]. *)
Definition neighborhoodSum (st : State) (numericRow numericCol : num) : Z :=
  for_range (-1) 3 (λ i,
    for_range (-1) 3 (λ j sum,
      let col := num_rem (num_add (num_add numericRow i) COLS) COLS in
      let row := num_rem (num_add (num_add numericCol j) ROWS) ROWS in
      let cellId := cellIdOf col row in
      sum + own_or_zero (currentCellState st) cellId)) 0.

(** The last step subtracts the cell's own entry; subtracting [undefined]
    gives [NaN]. *)
Definition countNeighbors (st : State) (numericRow numericCol : num) : num :=
  let sum := neighborhoodSum st numericRow numericCol in
  match currentCellState st !! cellIdOf numericRow numericCol with
  | Some v => Int (sum - v)
  | None => NaN
  end.

(** The value [evolve] stores for a cell with value [cellState] and
    neighbour sum [sumOfNeighbors]. *)
Definition nextValue (cellState : Z) (sumOfNeighbors : num) : Z :=
  if bool_decide (cellState = 1)
     && (num_gt sumOfNeighbors MAX_ALIVE_NEIGHBORS
         || num_lt sumOfNeighbors MIN_ALIVE_NEIGHBORS)
  then 0
  else if bool_decide (cellState = 0)
          && num_strict_eq sumOfNeighbors MAX_ALIVE_NEIGHBORS
  then 1
  else cellState.

(** The neighbour sum [evolve] computes for the entry under [cellId]. *)
Definition sumOfNeighborsAt (st : State) (cellId : string) : num :=
  let parts := split "_" cellId in
  let numericRow := Number_opt (parts !! 0%nat) in
  let numericCol := Number_opt (parts !! 1%nat) in
  countNeighbors st numericRow numericCol.

(** One iteration of the first loop of [evolve]: it reads
    [state.currentCellState] and writes [state.nextCellState]. *)
Definition evolveEntry (st : State) (entry : string * Z) : State :=
  let '(cellId, cellState) := entry in
  let sumOfNeighbors := sumOfNeighborsAt st cellId in
  set_nextCellState
    (<[cellId := nextValue cellState sumOfNeighbors]> (nextCellState st)) st.

(** The second loop of [evolve]: a cell is painted by the truthiness of
    its entry. *)
Definition paint (table : gmap string Z) (cell : Cell) : Cell :=
  match table !! id cell with
  | Some v => if bool_decide (v = 0) then mkCell (id cell) WHITE
              else mkCell (id cell) LIGHTBLUE
  | None => mkCell (id cell) WHITE
  end.

(** [evolve].  [Object.entries] lists the entries in insertion order and
    [map_to_list] in an order of its own; each iteration writes the key of
    its own entry only, so the order is immaterial
    ([evolve_current_lookup]). *)
Definition evolve (w : World) : World :=
  let st := foldl evolveEntry (state w)
                  (map_to_list (currentCellState (state w))) in
  let st := set_currentCellState (nextCellState st) st in
  let st := set_nextCellState ∅ st in
  mkWorld st (paint (currentCellState st) <$> cells w) (randomCalls w).

(** ** The timer, clearUniverse and randomize *)

(** The callback given to [setInterval]. *)
Definition tick (w : World) : World :=
  evolve (set_state (set_generation (generation (state w) + 1) (state w)) w).

(** [handleStateProgression]; [timer] is the handle [setInterval] returns
    when the run starts. *)
Definition handleStateProgression (timer : Z) (w : World) : World :=
  let st := set_isProgressing (negb (isProgressing (state w))) (state w) in
  if isProgressing st then set_state (set_internalN timer st) w
  else set_state st w.

(** The body of the loop of [clearUniverse], on the table.  The loop also
    sets [cell.style.background] to [WHITE], which resets the background
    colour of the cell. *)
Definition clearCell (st : State) (cell : Cell) : State :=
  set_currentCellState (<[id cell := 0]> (currentCellState st)) st.

Definition clearUniverse (w : World) : World :=
  let st := set_generation 0 (state w) in
  mkWorld (foldl clearCell st (cells w))
          ((λ cell, mkCell (id cell) WHITE) <$> cells w)
          (randomCalls w).

Definition randomize (random : nat → Q) (w : World) : World :=
  initializeUniverse random (clearUniverse w).

(** The world when the script has run its top level: the two numbers come
    from the input fields of the page, which holds no cell yet. *)
Definition initialState (percentValue speedValue : string) : State :=
  mkState 0 0 false (Number percentValue) ∅ ∅ (Number speedValue).

Definition startup (random : nat → Q) (percentValue speedValue : string) : World :=
  initializeUniverse random (mkWorld (initialState percentValue speedValue) [] 0).

(** ** Vocabulary of the statements *)

(** A character other than the separator of the keys. *)
Definition not_underscore (a : ascii) : bool := bool_decide (a ≠ "_"%char).

(** The coordinates of the grid. *)
Definition inRange (i j : Z) : Prop := 0 ≤ i < ROWS ∧ 0 ≤ j < COLS.

(** The keys of all cells of the grid, row by row. *)
Definition gridIds : list string :=
  i ← seqZ 0 ROWS; j ← seqZ 0 COLS; [cellId i j].

(** The data model of a cell table: an entry for each coordinate of the
    grid and for nothing else, every value [0] or [1]. *)
Definition gridKeys (table : gmap string Z) : Prop :=
  ∀ k, is_Some (table !! k) ↔ ∃ i j, inRange i j ∧ k = cellId i j.

Definition binaryValues (table : gmap string Z) : Prop :=
  ∀ k v, table !! k = Some v → v = 0 ∨ v = 1.

(** Whether [initializeCell] lights the cell it creates when [calls] draws
    have been made before. *)
Definition litAt (random : nat → Q) (chance : num) (calls : nat) : bool :=
  truthy chance && draw_below (random calls) chance.

(** The call of [Math.random] that [initializeUniverse], started in [w],
    makes for the cell [(i, j)] when the chance is truthy. *)
Definition drawIndex (w : World) (i j : Z) : nat :=
  (randomCalls w + Z.to_nat (i * COLS + j))%nat.

(** [w'] is [w] after the first [t] cells, in row-major order, have been
    created by [initializeUniverse]. *)
Record InitUpTo (random : nat → Q) (w : World) (t : Z) (w' : World) : Prop := {
  init_state :
    state w' = set_currentCellState (currentCellState (state w')) (state w);
  init_calls :
    randomCalls w' =
      (randomCalls w +
       if truthy (chanceToBeLivingCell (state w)) then Z.to_nat t else 0)%nat;
  init_written : ∀ i j,
    0 ≤ i → 0 ≤ j < COLS → i * COLS + j < t →
    currentCellState (state w') !! cellId i j =
      Some (if litAt random (chanceToBeLivingCell (state w)) (drawIndex w i j)
            then 1 else 0);
  init_others : ∀ k,
    (∀ i j, 0 ≤ i → 0 ≤ j < COLS → i * COLS + j < t → k ≠ cellId i j) →
    currentCellState (state w') !! k = currentCellState (state w) !! k;
  init_cells : ∀ c,
    c ∈ cells w' ↔
    c ∈ cells w ∨
    ∃ i j, 0 ≤ i ∧ 0 ≤ j < COLS ∧ i * COLS + j < t ∧
      c = mkCell (cellId i j)
            (if litAt random (chanceToBeLivingCell (state w)) (drawIndex w i j)
             then LIGHTBLUE else "")
}.

(** What holds of the world between any two callbacks. *)
Record Invariant (w : World) : Prop := {
  inv_keys : gridKeys (currentCellState (state w));
  inv_values : binaryValues (currentCellState (state w));
  inv_next : nextCellState (state w) = ∅;
  inv_cells_in : ∀ c, c ∈ cells w → ∃ i j, inRange i j ∧ id c = cellId i j;
  inv_cells_all : ∀ i j, inRange i j → cellId i j ∈ id <$> cells w
}.

(** The callbacks of the page: the timer (armed only while the run is
    on), the start/stop button, the clear and randomize buttons and a key
    released in either input field. *)
Inductive step (random : nat → Q) : World → World → Prop :=
  | step_tick w :
      isProgressing (state w) = true → step random w (tick w)
  | step_toggle timer w :
      step random w (handleStateProgression timer w)
  | step_clear w :
      step random w (clearUniverse w)
  | step_randomize w :
      step random w (randomize random w)
  | step_speed value w :
      step random w (set_state (speedProgressionInput_onkeyup value (state w)) w)
  | step_percent value w :
      step random w
        (set_state (percentCellIsAliveInput_onkeyup value (state w)) w).

(** The worlds a session can be in. *)
Inductive reachable (random : nat → Q) : World → Prop :=
  | reachable_startup percentValue speedValue :
      reachable random (startup random percentValue speedValue)
  | reachable_step w w' :
      reachable random w → step random w w' → reachable random w'.

(** The neighbour count as section 4.2 of the specification words it:
    the nine offsets, rows wrapped by the number of rows and columns by
    the number of columns, minus the cell's own value. *)
Definition liveNeighborCount_spec (table : gmap string Z) (r c : Z) : Z :=
  for_range (-1) 3 (λ dr,
    for_range (-1) 3 (λ dc sum,
      let row := Z.rem (Z.rem (r + dr) ROWS + ROWS) ROWS in
      let col := Z.rem (Z.rem (c + dc) COLS + COLS) COLS in
      sum + own_or_zero table (cellId row col))) 0
  - own_or_zero table (cellId r c).

(** ** Sample sessions *)

(** Draws that are [0] at the calls listed in [low] and [0.99] elsewhere:
    with a chance of 50 exactly the cells created at the calls in [low]
    come out alive. *)
Definition drawsLowAt (low : list nat) : nat → Q :=
  λ n, if bool_decide (n ∈ low) then 0%Q else (99 # 100)%Q.

(** The entries of the current table that are not [0]. *)
Definition liveCells (w : World) : gmap string Z :=
  filter (λ kv, kv.2 ≠ 0) (currentCellState (state w)).

(** Only [(0, 0)] and [(ROWS - 1, COLS - 1)] alive. *)
Definition cornersWorld : World :=
  startup (drawsLowAt [0; 1499]%nat) "50" "100".

(** Only [(0, 40)] alive. *)
Definition loneCellWorld : World :=
  startup (drawsLowAt [40]%nat) "50" "100".

(** The nine cells of rows 0 to 2 and columns 9 to 11 alive. *)
Definition blockWorld : World :=
  startup (drawsLowAt [9; 10; 11; 59; 60; 61; 109; 110; 111]%nat) "50" "100".

(** The cells [(1, 0)], [(1, 1)] and [(1, 2)] alive. *)
Definition blinkerWorld : World :=
  startup (drawsLowAt [50; 51; 52]%nat) "50" "100".

(** ** The page around the state: timers, the button and the display *)

(** What [handleStateProgression] and the callback it arms touch besides
    [state]: the intervals armed by [setInterval] (handle and delay), the
    number of handles handed out so far, the text of the start button and
    the text of the generation display. *)
Record Page : Type := mkPage {
  world : World;
  intervals : list (Z * num);
  handles : Z;
  startButtonText : string;
  generationDisplayText : string
}.

(** [setInterval(callback, delay)]: the interval is armed under a fresh
    positive handle, which is returned. *)
Definition setInterval (delay : num) (p : Page) : Z * Page :=
  let handle := handles p + 1 in
  (handle,
   mkPage (world p) (intervals p ++ [(handle, delay)]) handle
          (startButtonText p) (generationDisplayText p)).

(** [clearInterval(handle)]: the interval of that handle, if any, is
    dropped. *)
Definition clearInterval (handle : Z) (p : Page) : Page :=
  mkPage (world p) (filter (λ armed, armed.1 ≠ handle) (intervals p))
         (handles p) (startButtonText p) (generationDisplayText p).

(** [handleStateProgression] with its effects on the timers and on the
    button. *)
Definition handleStateProgression_page (p : Page) : Page :=
  if negb (isProgressing (state (world p))) then
    let '(handle, p1) :=
      setInterval (progressionSpeed (state (world p))) p in
    mkPage (handleStateProgression handle (world p1)) (intervals p1)
           (handles p1) "Stop" (generationDisplayText p1)
  else
    let p1 := clearInterval (internalN (state (world p))) p in
    mkPage (handleStateProgression (internalN (state (world p))) (world p1))
           (intervals p1) (handles p1) "Start" (generationDisplayText p1).

(** The callback of the interval: it also writes the new generation into
    the display. *)
Definition tick_page (p : Page) : Page :=
  mkPage (tick (world p)) (intervals p) (handles p) (startButtonText p)
         (num_to_string (Int (generation (state (world p)) + 1))).

(** A function of the script that touches the world only. *)
Definition on_world (f : World → World) (p : Page) : Page :=
  mkPage (f (world p)) (intervals p) (handles p) (startButtonText p)
         (generationDisplayText p).

(** The page when the script has run its top level; the texts of the
    button and of the display are those of the document. *)
Definition loadedPage (random : nat → Q) (percentValue speedValue : string)
    (buttonText displayText : string) : Page :=
  mkPage (startup random percentValue speedValue) [] 0 buttonText displayText.

(** The callbacks of the page, the timer firing only for an armed
    interval. *)
Inductive page_step (random : nat → Q) : Page → Page → Prop :=
  | page_tick handle delay p :
      (handle, delay) ∈ intervals p → page_step random p (tick_page p)
  | page_toggle p :
      page_step random p (handleStateProgression_page p)
  | page_clear p :
      page_step random p (on_world clearUniverse p)
  | page_randomize p :
      page_step random p (on_world (randomize random) p)
  | page_speed value p :
      page_step random p
        (on_world (λ w, set_state
                          (speedProgressionInput_onkeyup value (state w)) w) p)
  | page_percent value p :
      page_step random p
        (on_world (λ w, set_state
                          (percentCellIsAliveInput_onkeyup value (state w)) w) p).

Inductive page_reachable (random : nat → Q) (buttonText displayText : string)
    : Page → Prop :=
  | page_reachable_loaded percentValue speedValue :
      page_reachable random buttonText displayText
        (loadedPage random percentValue speedValue buttonText displayText)
  | page_reachable_step p p' :
      page_reachable random buttonText displayText p →
      page_step random p p' →
      page_reachable random buttonText displayText p'.

(** [n] ticks in a row. *)
Fixpoint ticks (n : nat) (w : World) : World :=
  match n with
  | O => w
  | S n' => tick (ticks n' w)
  end.

(** The sum of the eight entries around [(r, c)]. *)
Definition adjacentSum (table : gmap string Z) (r c : Z) : Z :=
  own_or_zero table (cellId (r - 1) (c - 1))
  + own_or_zero table (cellId (r - 1) c)
  + own_or_zero table (cellId (r - 1) (c + 1))
  + own_or_zero table (cellId r (c - 1))
  + own_or_zero table (cellId r (c + 1))
  + own_or_zero table (cellId (r + 1) (c - 1))
  + own_or_zero table (cellId (r + 1) c)
  + own_or_zero table (cellId (r + 1) (c + 1)).

(** Conway's rule on a value and a number of live neighbours. *)
Definition lifeRule (v n : Z) : Z :=
  if decide (v = 1)
  then (if decide (n = 2 ∨ n = 3) then 1 else 0)
  else (if decide (n = 3) then 1 else 0).

(** A page whose run was started once on the blinker. *)
Definition runningBlinkerPage : Page :=
  handleStateProgression_page
    (loadedPage (drawsLowAt [50; 51; 52]%nat) "50" "100" "Start" "0").

(** What holds of the page between any two callbacks. *)
Record PageInvariant (buttonText : string) (p : Page) : Prop := {
  pinv_running :
    isProgressing (state (world p)) = true →
    ∃ delay, intervals p = [(internalN (state (world p)), delay)];
  pinv_stopped :
    isProgressing (state (world p)) = false → intervals p = [];
  pinv_stop_label :
    isProgressing (state (world p)) = true → startButtonText p = "Stop"%string;
  pinv_start_label :
    isProgressing (state (world p)) = false →
    startButtonText p = "Start"%string ∨ startButtonText p = buttonText;
  pinv_display :
    generationDisplayText p = num_to_string (Int (generation (state (world p))))
    ∨ generation (state (world p)) = 0
}.

(** The cell [initializeUniverse], started in [w], creates at its [t]-th
    iteration (counted from 0, row by row). *)
Definition cellAt (random : nat → Q) (w : World) (t : Z) : Cell :=
  mkCell (cellId (t / COLS) (t mod COLS))
         (if litAt random (chanceToBeLivingCell (state w))
                   (randomCalls w + Z.to_nat t)
          then LIGHTBLUE else "").

(** The last cell of the document with a given [id]: the one created
    last, which lies over the others of that [id]. *)
Definition newestCell (key : string) (l : list Cell) : option Cell :=
  last (filter (λ cell, id cell = key) l).

(** The newest cell of every [id] shows the entry of that [id]. *)
Definition ViewOk (w : World) : Prop :=
  ∀ key cell,
    newestCell key (cells w) = Some cell →
    (backgroundColor cell = LIGHTBLUE
     ↔ currentCellState (state w) !! key = Some 1).

(** Every entry of the table is 0. *)
Definition allDead (table : gmap string Z) : Prop :=
  ∀ k v, table !! k = Some v → v = 0.

(** * Properties *)

Example cellId_3_14 : cellId 3 14 = "3_14"%string.
Proof. reflexivity. Qed.
Example split_3_14 : split "_" "3_14" = ["3"; "14"]%string.
Proof. reflexivity. Qed.
Example Number_examples :
  Number "14" = Int 14 ∧ Number "" = Int 0 ∧ Number " 7 " = Int 7 ∧
  Number "-5" = Int (-5) ∧ Number "1a" = NaN ∧ Number "-" = NaN.
Proof. repeat split; reflexivity. Qed.

(** ** Decimal numerals: rendering and reading back *)

Lemma pretty_N_char_digit d : is_digit (pretty_N_char d) = true.
Proof. unfold pretty_N_char. by repeat case_match. Qed.

Lemma digit_value_pretty_N_char d :
  (d < 10)%N → digit_value (pretty_N_char d) = Z.of_N d.
Proof.
  intros Hd.
  assert (d = 0 ∨ d = 1 ∨ d = 2 ∨ d = 3 ∨ d = 4 ∨ d = 5 ∨ d = 6 ∨ d = 7
          ∨ d = 8 ∨ d = 9)%N as Hcases by lia.
  repeat (destruct Hcases as [->|Hcases]; [reflexivity|]).
  by subst.
Qed.

Lemma pretty_N_go_forallb (p : ascii → bool) x s :
  (∀ d, p (pretty_N_char d) = true) →
  string_forallb p s = true → string_forallb p (pretty_N_go x s) = true.
Proof.
  intros Hp. revert s. induction (N.lt_wf_0 x) as [x _ IH]; intros s Hs.
  destruct (decide (x = 0)%N) as [->|Hx]; [by rewrite pretty_N_go_0|].
  rewrite pretty_N_go_step by lia.
  apply IH; [apply N.div_lt; lia|]. simpl. by rewrite Hp, Hs.
Qed.

Lemma pretty_N_go_nonempty x s : s ≠ EmptyString → pretty_N_go x s ≠ EmptyString.
Proof.
  revert s. induction (N.lt_wf_0 x) as [x _ IH]; intros s Hs.
  destruct (decide (x = 0)%N) as [->|Hx]; [by rewrite pretty_N_go_0|].
  rewrite pretty_N_go_step by lia. apply IH; [apply N.div_lt; lia|done].
Qed.

Lemma digits_value_pretty_N_go x s :
  digits_value 0 (pretty_N_go x s) = digits_value (Z.of_N x) s.
Proof.
  revert s. induction (N.lt_wf_0 x) as [x _ IH]; intros s.
  destruct (decide (x = 0)%N) as [->|Hx]; [by rewrite pretty_N_go_0|].
  rewrite pretty_N_go_step by lia.
  rewrite IH by (apply N.div_lt; lia). simpl.
  rewrite pretty_N_char_digit, digit_value_pretty_N_char
    by (apply N.mod_lt; lia).
  f_equal. rewrite N2Z.inj_div, N2Z.inj_mod. simpl Z.of_N.
  pose proof (Z.div_mod (Z.of_N x) 10). lia.
Qed.

Lemma pretty_N_forallb (p : ascii → bool) (x : N) :
  (∀ d, p (pretty_N_char d) = true) → string_forallb p (pretty x) = true.
Proof.
  intros Hp. unfold pretty, pretty_N. case_decide.
  - specialize (Hp 0%N). simpl in *. by rewrite Hp.
  - by apply pretty_N_go_forallb.
Qed.

Lemma pretty_nonneg_digits z :
  0 ≤ z → string_forallb is_digit (pretty z) = true.
Proof.
  intros Hz. destruct z as [|q|q]; [done| |lia].
  apply (pretty_N_forallb is_digit (Npos q)), pretty_N_char_digit.
Qed.

Lemma pretty_nonneg_nonempty z : 0 ≤ z → pretty z ≠ EmptyString.
Proof.
  intros Hz. destruct z as [|q|q]; [done| |lia].
  change (pretty (Z.pos q)) with (pretty_N_go (Npos q) "").
  rewrite pretty_N_go_step by lia. by apply pretty_N_go_nonempty.
Qed.

Lemma digits_value_pretty z : 0 ≤ z → digits_value 0 (pretty z) = Some z.
Proof.
  intros Hz. destruct z as [|q|q]; [done| |lia].
  change (pretty (Z.pos q)) with (pretty_N_go (Npos q) "").
  by rewrite digits_value_pretty_N_go.
Qed.

(** ** Keys: splitting and reading back [`${i}_${j}`] *)

Lemma split_no_underscore s :
  string_forallb not_underscore s = true → split "_" s = [s].
Proof.
  induction s as [|a s IH]; simpl; [done|].
  intros [Ha Hs]%andb_true_iff. apply bool_decide_eq_true in Ha.
  rewrite decide_False by done. by rewrite IH.
Qed.

Lemma split_app_underscore s1 s2 :
  string_forallb not_underscore s1 = true →
  split "_" (s1 +:+ String "_" s2) = s1 :: split "_" s2.
Proof.
  induction s1 as [|a s1 IH].
  - intros _. change (EmptyString +:+ String "_" s2) with (String "_" s2).
    reflexivity.
  - intros [Ha Hs]%andb_true_iff. apply bool_decide_eq_true in Ha.
    change (String a s1 +:+ String "_" s2)
      with (String a (s1 +:+ String "_" s2)).
    simpl. rewrite decide_False by done. by rewrite IH.
Qed.

Lemma pretty_Z_no_underscore (z : Z) :
  string_forallb not_underscore (pretty z) = true.
Proof.
  assert (∀ d, not_underscore (pretty_N_char d) = true) as Hd.
  { intros d. unfold pretty_N_char. by repeat case_match. }
  destruct z as [|q|q]; [done| |].
  - by apply (pretty_N_forallb _ (Npos q)).
  - change (pretty (Z.neg q)) with (String "-" (pretty (Npos q))).
    simpl. by apply (pretty_N_forallb _ (Npos q)).
Qed.

Lemma split_cellId i j : split "_" (cellId i j) = [pretty i; pretty j].
Proof.
  unfold cellId, cellIdOf, num_to_string.
  change ("_" +:+ pretty j) with (String "_" (pretty j)).
  rewrite split_app_underscore by apply pretty_Z_no_underscore.
  by rewrite split_no_underscore by apply pretty_Z_no_underscore.
Qed.

Lemma cellId_inj i j i' j' : cellId i j = cellId i' j' → i = i' ∧ j = j'.
Proof.
  intros Heq. apply (f_equal (split "_")) in Heq.
  rewrite !split_cellId in Heq. injection Heq as Hi Hj.
  by apply (inj pretty) in Hi, Hj.
Qed.

Lemma digit_not_space a : is_digit a = true → Ascii.is_space a = false.
Proof.
  unfold is_digit, Ascii.is_nat, Ascii.is_space.
  destruct a as [[] [] [] [] [] [] [] []]; simpl; congruence.
Qed.

Lemma trim_end_digits s :
  string_forallb is_digit s = true → trim_end s = s.
Proof.
  induction s as [|a s IH]; simpl; [done|].
  intros [Ha Hs]%andb_true_iff. rewrite IH by done.
  destruct s; [by rewrite digit_not_space|done].
Qed.

Lemma Number_digits s v :
  s ≠ EmptyString → string_forallb is_digit s = true →
  digits_value 0 s = Some v → Number s = Int v.
Proof.
  intros Hne Hdig Hv. unfold Number.
  destruct s as [|a s]; [done|].
  pose proof Hdig as [Ha _]%andb_true_iff.
  assert (trim_start (String a s) = String a s) as ->.
  { simpl. by rewrite digit_not_space. }
  rewrite trim_end_digits by done.
  rewrite !decide_False; [|by intros ->..].
  unfold unsigned_decimal. by rewrite Hv.
Qed.

Lemma Number_pretty z : 0 ≤ z → Number (pretty z) = Int z.
Proof.
  intros Hz. apply Number_digits;
    auto using pretty_nonneg_nonempty, pretty_nonneg_digits, digits_value_pretty.
Qed.

Lemma sumOfNeighborsAt_cellId st i j :
  0 ≤ i → 0 ≤ j →
  sumOfNeighborsAt st (cellId i j) = countNeighbors st (Int i) (Int j).
Proof.
  intros Hi Hj. unfold sumOfNeighborsAt. rewrite split_cellId. simpl.
  by rewrite !Number_pretty.
Qed.

(** ** The first loop of [evolve] *)

Lemma countNeighbors_current st st' r c :
  currentCellState st = currentCellState st' →
  countNeighbors st r c = countNeighbors st' r c.
Proof. intros Heq. unfold countNeighbors, neighborhoodSum. by rewrite Heq. Qed.

Lemma sumOfNeighborsAt_current st st' k :
  currentCellState st = currentCellState st' →
  sumOfNeighborsAt st k = sumOfNeighborsAt st' k.
Proof. intros Heq. unfold sumOfNeighborsAt. by apply countNeighbors_current. Qed.

Lemma evolveEntry_current st entry :
  currentCellState (evolveEntry st entry) = currentCellState st.
Proof. by destruct entry. Qed.

Lemma evolve_loop_current entries st :
  currentCellState (foldl evolveEntry st entries) = currentCellState st.
Proof.
  revert st. induction entries as [|entry entries IH]; intros st; simpl; [done|].
  by rewrite IH, evolveEntry_current.
Qed.

Lemma evolve_loop_next entries st k :
  NoDup entries.*1 →
  nextCellState (foldl evolveEntry st entries) !! k =
    match (list_to_map entries : gmap string Z) !! k with
    | Some v => Some (nextValue v (sumOfNeighborsAt st k))
    | None => nextCellState st !! k
    end.
Proof.
  revert st. induction entries as [|[k0 v0] entries IH]; intros st; simpl; [done|].
  intros [Hk0 Hnodup]%NoDup_cons. rewrite IH by done.
  rewrite (sumOfNeighborsAt_current (evolveEntry st (k0, v0)) st)
    by apply evolveEntry_current.
  destruct (decide (k = k0)) as [->|Hne].
  - rewrite lookup_insert_eq.
    rewrite (not_elem_of_list_to_map_1 entries k0) by done.
    simpl. by rewrite lookup_insert_eq.
  - rewrite (lookup_insert_ne _ k0 k) by done.
    destruct (list_to_map entries !! k); [done|].
    simpl. by rewrite lookup_insert_ne.
Qed.

Lemma evolve_current_lookup w k :
  currentCellState (state (evolve w)) !! k =
    match currentCellState (state w) !! k with
    | Some v => Some (nextValue v (sumOfNeighborsAt (state w) k))
    | None => nextCellState (state w) !! k
    end.
Proof.
  unfold evolve. simpl. rewrite evolve_loop_next by apply NoDup_fst_map_to_list.
  by rewrite list_to_map_to_list.
Qed.

Lemma evolve_next_empty w : nextCellState (state (evolve w)) = ∅.
Proof. done. Qed.

Lemma evolve_randomCalls w : randomCalls (evolve w) = randomCalls w.
Proof. done. Qed.

Lemma evolve_cells_ids w : id <$> cells (evolve w) = id <$> cells w.
Proof.
  unfold evolve. simpl. rewrite <- list_fmap_compose.
  apply list_fmap_ext. intros _ cell _. unfold paint. simpl.
  by repeat case_match.
Qed.

Lemma nextValue_binary v n : v = 0 ∨ v = 1 → nextValue v n = 0 ∨ nextValue v n = 1.
Proof. intros [-> | ->]; unfold nextValue; repeat case_match; auto. Qed.

Lemma evolve_loop_frame entries st :
  foldl evolveEntry st entries =
    set_nextCellState (nextCellState (foldl evolveEntry st entries)) st.
Proof.
  revert st. induction entries as [|[k v] entries IH]; intros st; simpl.
  - by destruct st.
  - rewrite IH at 1. by destruct st.
Qed.

(** One tick advances the generation by one. *)
Lemma tick_generation w :
  generation (state (tick w)) = generation (state w) + 1.
Proof. unfold tick, evolve. simpl. by rewrite evolve_loop_frame. Qed.

(** ** What [countNeighbors] reads *)

(** The nine entries [countNeighbors] reads for integer coordinates: the
    first component of a key is taken modulo [COLS] and the second modulo
    [ROWS]. *)
Lemma neighborhoodSum_Int st r c :
  let read i j :=
    own_or_zero (currentCellState st)
      (cellId (Z.rem (r + i + COLS) COLS) (Z.rem (c + j + ROWS) ROWS)) in
  neighborhoodSum st (Int r) (Int c) =
    0 + read (-1) (-1) + read (-1) 0 + read (-1) 1
      + read 0 (-1) + read 0 0 + read 0 1
      + read 1 (-1) + read 1 0 + read 1 1.
Proof. reflexivity. Qed.

Lemma own_or_zero_binary table key :
  binaryValues table → 0 ≤ own_or_zero table key ≤ 1.
Proof.
  intros Hbin. unfold own_or_zero.
  destruct (table !! key) as [v|] eqn:Hv; [|lia].
  destruct (Hbin key v Hv); lia.
Qed.

(** X14.  What does hold of the count on a table of zeros and ones: for
    integer coordinates whose entry exists it lies between -1 and 9. *)
Lemma countNeighbors_bounds st r c n :
  binaryValues (currentCellState st) →
  countNeighbors st (Int r) (Int c) = Int n → -1 ≤ n ≤ 9.
Proof.
  intros Hbin. unfold countNeighbors.
  destruct (currentCellState st !! _) as [v|] eqn:Hv; [|done].
  intros [= <-]. rewrite neighborhoodSum_Int. cbv zeta.
  assert (0 ≤ v ≤ 1) as Hown by (destruct (Hbin _ v Hv); lia).
  repeat match goal with
  | |- context [own_or_zero ?t ?k] =>
      pose proof (own_or_zero_binary t k Hbin);
      generalize dependent (own_or_zero t k); intros
  end.
  lia.
Qed.

Lemma rem_shifted x n : 0 ≤ x < n → Z.rem (x + n) n = x.
Proof.
  intros Hx. rewrite Z.rem_mod_nonneg by lia.
  replace (x + n) with (x + 1 * n) by lia.
  rewrite Z.mod_add by lia. apply Z.mod_small. lia.
Qed.

Lemma rem_twice x n : 0 ≤ x < n → Z.rem (Z.rem x n + n) n = x.
Proof. intros Hx. rewrite (Z.rem_small x n) by lia. by apply rem_shifted. Qed.

(** Away from the border of the square of the first [ROWS] columns the
    two wrap-arounds do nothing, and the count is the specification's. *)
Lemma countNeighbors_interior st r c v :
  1 ≤ r ≤ ROWS - 2 → 1 ≤ c ≤ ROWS - 2 →
  currentCellState st !! cellId r c = Some v →
  countNeighbors st (Int r) (Int c)
    = Int (liveNeighborCount_spec (currentCellState st) r c).
Proof.
  intros Hr Hc Hv. unfold countNeighbors. fold (cellId r c). rewrite Hv.
  rewrite neighborhoodSum_Int. cbv zeta.
  unfold liveNeighborCount_spec, for_range.
  change (seqZ (-1) 3) with [-1; 0; 1]. cbn [foldl].
  unfold own_or_zero at 19. rewrite Hv.
  rewrite !rem_shifted, !rem_twice by (unfold ROWS, COLS in *; lia).
  reflexivity.
Qed.

(** ** clearUniverse *)

Lemma clear_loop_lookup (l : list Cell) st k :
  currentCellState (foldl clearCell st l) !! k =
    if decide (k ∈ id <$> l) then Some 0 else currentCellState st !! k.
Proof.
  revert st. induction l as [|c l IH]; intros st.
  - by rewrite decide_False by apply not_elem_of_nil.
  - change (foldl clearCell st (c :: l)) with (foldl clearCell (clearCell st c) l).
    rewrite IH, fmap_cons. unfold clearCell at 1. simpl currentCellState.
    destruct (decide (k ∈ id <$> l)) as [Hin|Hnin].
    + rewrite decide_True; [done|]. rewrite elem_of_cons; tauto.
    + destruct (decide (k = id c)) as [->|Hne].
      * rewrite decide_True by (rewrite elem_of_cons; tauto).
        by rewrite lookup_insert_eq.
      * rewrite decide_False by (rewrite elem_of_cons; tauto).
        by rewrite lookup_insert_ne.
Qed.

Lemma clear_loop_frame (l : list Cell) st :
  foldl clearCell st l =
    set_currentCellState (currentCellState (foldl clearCell st l)) st.
Proof.
  revert st. induction l as [|c l IH]; intros st; simpl.
  - by destruct st.
  - rewrite IH at 1. by destruct st.
Qed.

Lemma clearUniverse_lookup w k :
  currentCellState (state (clearUniverse w)) !! k =
    if decide (k ∈ id <$> cells w) then Some 0
    else currentCellState (state w) !! k.
Proof. unfold clearUniverse. simpl. by rewrite clear_loop_lookup. Qed.

Lemma clearUniverse_state w :
  state (clearUniverse w) =
    set_currentCellState (currentCellState (state (clearUniverse w)))
      (set_generation 0 (state w)).
Proof. unfold clearUniverse. simpl. by rewrite clear_loop_frame at 1. Qed.

Lemma clearUniverse_cells_ids w : id <$> cells (clearUniverse w) = id <$> cells w.
Proof.
  unfold clearUniverse. simpl. rewrite <- list_fmap_compose.
  by apply list_fmap_ext.
Qed.

Lemma clearUniverse_idempotent w :
  clearUniverse (clearUniverse w) = clearUniverse w.
Proof.
  assert (currentCellState (state (clearUniverse (clearUniverse w))) =
          currentCellState (state (clearUniverse w))) as Hmap.
  { apply map_eq. intros k. rewrite (clearUniverse_lookup (clearUniverse w)).
    rewrite clearUniverse_cells_ids. rewrite !clearUniverse_lookup.
    by destruct (decide (k ∈ id <$> cells w)). }
  assert (state (clearUniverse (clearUniverse w)) = state (clearUniverse w)) as Hst.
  { rewrite (clearUniverse_state (clearUniverse w)), Hmap.
    pose proof (clearUniverse_state w) as Hw.
    set (table := currentCellState (state (clearUniverse w))) in *.
    rewrite Hw. by destruct (state w). }
  assert (cells (clearUniverse (clearUniverse w)) = cells (clearUniverse w)) as Hcells.
  { unfold clearUniverse. simpl. rewrite <- list_fmap_compose.
    by apply list_fmap_ext. }
  destruct (clearUniverse (clearUniverse w)) as [st1 c1 r1] eqn:H1.
  destruct (clearUniverse w) as [st2 c2 r2] eqn:H2.
  simpl in *. subst. f_equal.
  apply (f_equal randomCalls) in H1. simpl in H1. by rewrite <- H1.
Qed.

(** ** Counting loops *)

Lemma for_range_zero {A} from (body : Z → A → A) a : for_range from 0 body a = a.
Proof. done. Qed.

Lemma for_range_succ {A} from n (body : Z → A → A) a :
0 ≤ n → for_range from (n + 1) body a = body (from + n) (for_range from n body a).
Proof.
intros Hn. unfold for_range. rewrite seqZ_app by lia.
rewrite foldl_app. rewrite (seqZ_cons (from + n) 1) by lia.
by rewrite (seqZ_nil (Z.succ (from + n))) by lia.
Qed.

Lemma for_range_ind {A} (P : Z → A → Prop) from n (body : Z → A → A) a :
0 ≤ n → P 0 a →
(∀ k acc, 0 ≤ k < n → P k acc → P (k + 1) (body (from + k) acc)) →
P n (for_range from n body a).
Proof.
intros Hn Hbase Hstep.
cut (∀ m, 0 ≤ m → m ≤ n → P m (for_range from m body a)).
{ intros Hall. apply Hall; lia. }
apply (natlike_ind (λ m, m ≤ n → P m (for_range from m body a))).
- intros _. by rewrite for_range_zero.
- intros m Hm IH Hle. rewrite <- Z.add_1_r, for_range_succ by done.
  apply Hstep; [lia|]. apply IH. lia.
Qed.

(** ** initializeUniverse *)

Section Initialization.
Variable random : nat → Q.

Lemma initializeCell_unfold i j w :
  let lit := litAt random (chanceToBeLivingCell (state w)) (randomCalls w) in
  initializeCell random i j w =
    mkWorld
      (set_currentCellState
         (<[cellId i j := if lit then 1 else 0]> (currentCellState (state w)))
         (state w))
      (cells w ++ [mkCell (cellId i j) (if lit then LIGHTBLUE else "")])
      (if truthy (chanceToBeLivingCell (state w)) then S (randomCalls w)
       else randomCalls w).
Proof.
  unfold initializeCell, litAt.
  destruct (truthy (chanceToBeLivingCell (state w))); [|done].
  by destruct (draw_below _ _).
Qed.

Lemma InitUpTo_start w : InitUpTo random w 0 w.
Proof.
  split.
  - by destruct (state w).
  - simpl. destruct (truthy _); lia.
  - unfold COLS. lia.
  - done.
  - intros c. split; [auto|]. intros [?|(i & j & ? & ? & ? & _)]; [done|].
    unfold COLS in *. lia.
Qed.

Lemma InitUpTo_step w i j w' :
  0 ≤ i → 0 ≤ j < COLS →
  InitUpTo random w (i * COLS + j) w' →
  InitUpTo random w (i * COLS + j + 1) (initializeCell random i j w').
Proof.
  intros Hi Hj [Hst Hcalls Hwritten Hothers Hcells].
  assert (chanceToBeLivingCell (state w') = chanceToBeLivingCell (state w))
    as Hchance by (by rewrite Hst).
  assert (randomCalls w' = drawIndex w i j ∨
          truthy (chanceToBeLivingCell (state w)) = false) as Hidx.
  { unfold drawIndex. rewrite Hcalls. destruct (truthy _); auto. }
  assert (litAt random (chanceToBeLivingCell (state w)) (randomCalls w') =
          litAt random (chanceToBeLivingCell (state w)) (drawIndex w i j))
    as Hlit.
  { destruct Hidx as [-> | Hfalsy]; [done|]. unfold litAt. by rewrite Hfalsy. }
  rewrite initializeCell_unfold. cbv zeta. rewrite Hchance, Hlit.
  split; simpl.
  - rewrite Hst. by destruct (state w).
  - rewrite Hcalls. destruct (truthy _); unfold COLS in *; lia.
  - intros i' j' Hi' Hj' Hlt.
    destruct (decide (i' = i ∧ j' = j)) as [[-> ->]|Hne].
    + by rewrite lookup_insert_eq.
    + rewrite lookup_insert_ne.
      * apply Hwritten; [done..|]. unfold COLS in *. lia.
      * intros [-> ->]%cellId_inj. by apply Hne.
  - intros k Hk. rewrite lookup_insert_ne.
    + apply Hothers. intros i' j' ? ? ?. apply Hk; [done..|lia].
    + intros Heq. by apply (Hk i j); [..|lia|].
  - intros c. rewrite elem_of_app, list_elem_of_singleton, Hcells. split.
    + intros [[?|(i' & j' & ? & ? & ? & ->)]| ->]; [by left|right..].
      * exists i', j'. split_and!; try done; lia.
      * exists i, j. split_and!; try done; lia.
    + intros [?|(i' & j' & ? & ? & Hlt & ->)]; [by left; left|].
      destruct (decide (i' = i ∧ j' = j)) as [[-> ->]|Hne]; [by right|].
      left; right. exists i', j'. split_and!; try done; unfold COLS in *; lia.
Qed.

Lemma initializeUniverse_InitUpTo w :
  InitUpTo random w (ROWS * COLS) (initializeUniverse random w).
Proof.
  unfold initializeUniverse.
  apply (for_range_ind (λ i w', InitUpTo random w (i * COLS) w')); [done|apply InitUpTo_start|].
  intros i w1 Hi Hrow.
  replace ((i + 1) * COLS) with (i * COLS + COLS) by lia.
  apply (for_range_ind (λ j w', InitUpTo random w (i * COLS + j) w')); [done| |].
  - by rewrite Z.add_0_r.
  - intros j w2 Hj Hcell. rewrite Z.add_assoc.
    apply InitUpTo_step; [lia|lia|done].
Qed.

End Initialization.

Lemma elem_of_gridIds k :
k ∈ gridIds ↔ ∃ i j, inRange i j ∧ k = cellId i j.
Proof.
unfold gridIds, inRange. rewrite list_elem_of_bind. split.
- intros (i & (j & Hk%list_elem_of_singleton & Hj%elem_of_seqZ)%list_elem_of_bind
            & Hi%elem_of_seqZ).
  exists i, j. split; [lia|done].
- intros (i & j & [Hi Hj] & ->). exists i. split; [|apply elem_of_seqZ; lia].
  apply list_elem_of_bind. exists j. split; [by apply list_elem_of_singleton|].
  apply elem_of_seqZ; lia.
Qed.

Lemma inRange_index i j :
inRange i j ↔ 0 ≤ i ∧ 0 ≤ j < COLS ∧ i * COLS + j < ROWS * COLS.
Proof. unfold inRange, ROWS, COLS. lia. Qed.

Section Invariants.
Variable random : nat → Q.

Lemma initializeUniverse_Invariant w :
  (∀ k, is_Some (currentCellState (state w) !! k) →
        ∃ i j, inRange i j ∧ k = cellId i j) →
  binaryValues (currentCellState (state w)) →
  nextCellState (state w) = ∅ →
  (∀ c, c ∈ cells w → ∃ i j, inRange i j ∧ id c = cellId i j) →
  Invariant (initializeUniverse random w).
Proof.
  intros Hkeys Hvalues Hnext Hcells.
  destruct (initializeUniverse_InitUpTo random w)
    as [Hst Hcalls Hwritten Hothers Hnew].
  assert (∀ i j, inRange i j →
            ∃ v, currentCellState (state (initializeUniverse random w))
                   !! cellId i j = Some v ∧ (v = 0 ∨ v = 1)) as Hin.
  { intros i j (? & ? & ?)%inRange_index. eexists. split.
    - by apply Hwritten.
    - destruct (litAt _ _ _); auto. }
  split.
  - intros k. split.
    + intros Hsome. destruct (decide (k ∈ gridIds)) as [Hk|Hk].
      { by apply elem_of_gridIds. }
      apply Hkeys. rewrite <- Hothers; [done|].
      intros i j ? ? ? ->. apply Hk, elem_of_gridIds.
      exists i, j. split; [apply inRange_index; tauto|reflexivity].
    + intros (i & j & Hr & ->). destruct (Hin i j Hr) as (v & -> & _). eauto.
  - intros k v Hk. destruct (decide (k ∈ gridIds)) as [Hin'|Hout].
    + apply elem_of_gridIds in Hin' as (i & j & Hr & ->).
      destruct (Hin i j Hr) as (v' & Hv' & ?). congruence.
    + apply (Hvalues k). rewrite <- Hothers; [done|].
      intros i j ? ? ? ->. apply Hout, elem_of_gridIds.
      exists i, j. split; [apply inRange_index; tauto|reflexivity].
  - rewrite Hst. exact Hnext.
  - intros c [Hold|(i & j & ? & ? & ? & ->)]%Hnew; [by apply Hcells|].
    exists i, j. split; [apply inRange_index; tauto|reflexivity].
  - intros i j Hr. apply list_elem_of_fmap. eexists. split; [|apply Hnew].
    2:{ right. exists i, j. apply inRange_index in Hr as (? & ? & ?).
        split_and!; [tauto..|reflexivity]. }
    reflexivity.
Qed.

Lemma startup_Invariant percentValue speedValue :
  Invariant (startup random percentValue speedValue).
Proof.
  apply initializeUniverse_Invariant; simpl.
  - intros k [v Hv]. by rewrite lookup_empty in Hv.
  - intros k v Hv. by rewrite lookup_empty in Hv.
  - done.
  - intros c Hc. by apply not_elem_of_nil in Hc.
Qed.

Lemma evolve_Invariant w : Invariant w → Invariant (evolve w).
Proof.
  intros [Hkeys Hvalues Hnext Hin Hall]. unfold gridKeys in Hkeys. split.
  - intros k. rewrite <- Hkeys, evolve_current_lookup, Hnext.
    destruct (currentCellState (state w) !! k); [|by rewrite lookup_empty].
    split; eauto.
  - intros k v. rewrite evolve_current_lookup, Hnext.
    destruct (currentCellState (state w) !! k) as [v0|] eqn:Hk;
      [|by rewrite lookup_empty].
    intros [= <-]. apply nextValue_binary. by apply (Hvalues k).
  - done.
  - intros c Hc.
    assert (id c ∈ id <$> cells w) as (c0 & -> & Hc0)%list_elem_of_fmap.
    { rewrite <- evolve_cells_ids. by apply list_elem_of_fmap_2. }
    by apply Hin.
  - intros i j Hr. rewrite evolve_cells_ids. by apply Hall.
Qed.

Lemma clearUniverse_Invariant w : Invariant w → Invariant (clearUniverse w).
Proof.
  intros [Hkeys Hvalues Hnext Hin Hall]. split.
  - intros k. rewrite clearUniverse_lookup.
    destruct (decide (k ∈ id <$> cells w)) as [Hk|Hk]; [|apply Hkeys].
    split; [|eauto]. intros _.
    apply list_elem_of_fmap in Hk as (c & -> & Hc). by apply Hin.
  - intros k v. rewrite clearUniverse_lookup.
    destruct (decide (k ∈ id <$> cells w)); [|apply Hvalues].
    intros [= <-]. by left.
  - by rewrite clearUniverse_state.
  - intros c Hc.
    assert (id c ∈ id <$> cells w) as (c0 & -> & Hc0)%list_elem_of_fmap.
    { rewrite <- clearUniverse_cells_ids. by apply list_elem_of_fmap_2. }
    by apply Hin.
  - intros i j Hr. rewrite clearUniverse_cells_ids. by apply Hall.
Qed.

Lemma step_Invariant w w' : step random w w' → Invariant w → Invariant w'.
Proof.
  intros Hstep Hinv. destruct Hstep as [w _|timer w|w|w|value w|value w].
  - apply evolve_Invariant. by destruct Hinv.
  - unfold handleStateProgression. destruct Hinv.
    by destruct (isProgressing _).
  - by apply clearUniverse_Invariant.
  - apply clearUniverse_Invariant in Hinv as [Hkeys Hvalues Hnext Hin Hall].
    apply initializeUniverse_Invariant; [|done..].
    intros k. apply Hkeys.
  - unfold speedProgressionInput_onkeyup. destruct Hinv.
    by destruct (digits_regex_test value).
  - unfold percentCellIsAliveInput_onkeyup. destruct Hinv.
    by destruct (digits_regex_test value).
Qed.

Lemma reachable_Invariant w : reachable random w → Invariant w.
Proof.
  induction 1 as [percentValue speedValue|w w' _ IH Hstep].
  - apply startup_Invariant.
  - by apply (step_Invariant w).
Qed.

End Invariants.

(** ** What the loops of [initializeUniverse] leave behind *)

Lemma initializeUniverse_lookup random w i j :
  inRange i j →
  currentCellState (state (initializeUniverse random w)) !! cellId i j =
    Some (if litAt random (chanceToBeLivingCell (state w)) (drawIndex w i j)
          then 1 else 0).
Proof.
  intros (? & ? & ?)%inRange_index.
  by apply (init_written _ _ _ _ (initializeUniverse_InitUpTo random w)).
Qed.

Lemma initializeUniverse_randomCalls random w :
  randomCalls (initializeUniverse random w) =
    (randomCalls w +
     if truthy (chanceToBeLivingCell (state w)) then Z.to_nat (ROWS * COLS)
     else 0)%nat.
Proof. apply (init_calls _ _ _ _ (initializeUniverse_InitUpTo random w)). Qed.

Lemma drawIndex_inj w i j i' j' :
  inRange i j → inRange i' j' → drawIndex w i j = drawIndex w i' j' →
  i = i' ∧ j = j'.
Proof. unfold inRange, drawIndex, ROWS, COLS. lia. Qed.

Lemma draw_below_Int u z :
  draw_below u (Int z) = true ↔ (u * 99 + 1 < inject_Z z)%Q.
Proof.
  unfold draw_below. rewrite negb_true_iff, <- not_true_iff_false.
  rewrite Qle_bool_iff. change (100 - 1)%Q with 99%Q.
  split; [apply Qnot_le_lt|apply Qlt_not_le].
Qed.

Lemma litAt_Int random z calls :
  litAt random (Int z) calls = true ↔
  z ≠ 0 ∧ (random calls * 99 + 1 < inject_Z z)%Q.
Proof.
  unfold litAt, truthy. rewrite andb_true_iff, negb_true_iff, draw_below_Int.
  by rewrite bool_decide_eq_false.
Qed.

Lemma litAt_falsy random chance calls :
  truthy chance = false → litAt random chance calls = false.
Proof. intros Hfalsy. unfold litAt. by rewrite Hfalsy. Qed.

(** At one percent no draw of [[0, 1)] lights a cell. *)
Lemma litAt_one random calls :
  (0 <= random calls)%Q → litAt random (Int 1) calls = false.
Proof.
  intros Hu. apply not_true_iff_false. intros [_ Hlt]%litAt_Int.
  apply (Qlt_not_le _ _ Hlt). change (inject_Z 1) with (0 * 99 + 1)%Q.
  apply Qplus_le_compat; [|apply Qle_refl].
  by apply Qmult_le_compat_r.
Qed.


(** ** The input fields *)

Lemma onkeyup_without_digit_retains value st :
  digits_regex_test value = false →
  speedProgressionInput_onkeyup value st = st ∧
  percentCellIsAliveInput_onkeyup value st = st.
Proof.
  intros Htest.
  unfold speedProgressionInput_onkeyup, percentCellIsAliveInput_onkeyup.
  by rewrite Htest.
Qed.

Lemma digit_only_regex_test value :
  digit_only value = true → digits_regex_test value = true.
Proof.
  destruct value as [|a value]; [done|]. simpl.
  intros [Ha _]%andb_true_iff. unfold digits_regex_test. simpl. by rewrite Ha.
Qed.

Lemma onkeyup_digit_only_stores value st v :
  digit_only value = true → digits_value 0 value = Some v →
  progressionSpeed (speedProgressionInput_onkeyup value st) = Int v ∧
  chanceToBeLivingCell (percentCellIsAliveInput_onkeyup value st) = Int v.
Proof.
  intros Honly Hv.
  unfold speedProgressionInput_onkeyup, percentCellIsAliveInput_onkeyup.
  rewrite (digit_only_regex_test value Honly).
  assert (Number value = Int v) as ->; [|done].
  destruct value as [|a value]; [done|]. by apply Number_digits.
Qed.

(** ** Reachable worlds *)

Lemma handleStateProgression_current timer w :
  currentCellState (state (handleStateProgression timer w)) =
    currentCellState (state w).
Proof. unfold handleStateProgression. simpl. by destruct (isProgressing _). Qed.

Lemma evolve_current_ext w1 w2 :
  currentCellState (state w1) = currentCellState (state w2) →
  nextCellState (state w1) = nextCellState (state w2) →
  currentCellState (state (evolve w1)) = currentCellState (state (evolve w2)).
Proof.
  intros Hcur Hnext. apply map_eq. intros k.
  rewrite !evolve_current_lookup, Hcur, Hnext.
  by rewrite (sumOfNeighborsAt_current (state w1) (state w2)).
Qed.

Lemma nextValue_B3S23 v n :
  v = 0 ∨ v = 1 →
  nextValue v (Int n) =
    if decide (v = 1)
    then (if decide (n = 2 ∨ n = 3) then 1 else 0)
    else (if decide (n = 3) then 1 else 0).
Proof.
  unfold nextValue, num_gt, num_lt, num_strict_eq,
    MAX_ALIVE_NEIGHBORS, MIN_ALIVE_NEIGHBORS.
  intros [-> | ->]; simpl; repeat case_bool_decide; repeat case_decide;
    simpl; try done; lia.
Qed.

Lemma set_state_state st w : state (set_state st w) = st.
Proof. reflexivity. Qed.

Lemma onkeyup_current value st :
  currentCellState (speedProgressionInput_onkeyup value st)
    = currentCellState st ∧
  currentCellState (percentCellIsAliveInput_onkeyup value st)
    = currentCellState st.
Proof.
  unfold speedProgressionInput_onkeyup, percentCellIsAliveInput_onkeyup.
  by destruct (digits_regex_test value).
Qed.

Lemma startup_one_percent_dead random speedValue i j :
  inRange i j →
  (0 <= random (drawIndex (mkWorld (initialState "1" speedValue) [] 0) i j))%Q →
  currentCellState (state (startup random "1" speedValue)) !! cellId i j
    = Some 0.
Proof.
  intros Hij Hdraw. unfold startup.
  rewrite initializeUniverse_lookup by exact Hij.
  simpl state. change (chanceToBeLivingCell (initialState "1" speedValue))
    with (Int 1).
  rewrite litAt_one by exact Hdraw. reflexivity.
Qed.

Lemma blinkerWorld_reachable :
  reachable (drawsLowAt [50; 51; 52]%nat) blinkerWorld.
Proof. apply reachable_startup. Qed.

Lemma blinkerWorld_ticked_reachable :
  reachable (drawsLowAt [50; 51; 52]%nat)
    (tick (handleStateProgression 1 blinkerWorld)).
Proof.
  apply (reachable_step _ (handleStateProgression 1 blinkerWorld)).
  - apply (reachable_step _ blinkerWorld).
    + apply blinkerWorld_reachable.
    + apply (step_toggle _ 1).
  - apply step_tick. vm_compute. reflexivity.
Qed.

(** * The claims *)

(** C1.  The count of [countNeighbors] is not the toroidal count of
    the specification: it wraps the row index by [COLS] and the column
    index by [ROWS].  On the grid whose only live cells are [(0, 0)] and
    [(ROWS - 1, COLS - 1)], the nine keys read for [(0, 0)] are those of
    rows 49, 0, 1 and columns 29, 0, 1; the opposite corner ["29_49"] is
    not among them and the count is [0], where the specification's count
    is [1]. *)
Theorem countNeighbors_misses_opposite_corner :
  liveCells cornersWorld
    = {[ cellId 0 0 := 1; cellId (ROWS - 1) (COLS - 1) := 1 ]} ∧
  countNeighbors (state cornersWorld) (Int 0) (Int 0) = Int 0 ∧
  sumOfNeighborsAt (state cornersWorld) (cellId 0 0) = Int 0 ∧
  liveNeighborCount_spec (currentCellState (state cornersWorld)) 0 0 = 1.
Proof. vm_compute. split_and!; reflexivity. Qed.

(** C2.  The count of [countNeighbors] leaves the interval from 0 to 8 on
    grids of zeros and ones.  For a column [c ≥ ROWS] the columns read are
    those around [c - ROWS], so the cell itself is not among the nine cells
    summed, yet its value is subtracted: a lone live cell at [(0, 40)]
    gets the count [-1], and the dead cell [(1, 40)] gets the count [9]
    when the nine cells of rows 0 to 2 and columns 9 to 11 live. *)
Theorem countNeighbors_outside_0_8 :
  binaryValues (currentCellState (state loneCellWorld)) ∧
  binaryValues (currentCellState (state blockWorld)) ∧
  inRange 0 40 ∧ inRange 1 40 ∧
  liveCells loneCellWorld = {[ cellId 0 40 := 1 ]} ∧
  countNeighbors (state loneCellWorld) (Int 0) (Int 40) = Int (-1) ∧
  sumOfNeighborsAt (state loneCellWorld) (cellId 0 40) = Int (-1) ∧
  currentCellState (state blockWorld) !! cellId 1 40 = Some 0 ∧
  countNeighbors (state blockWorld) (Int 1) (Int 40) = Int 9.
Proof.
  split; [apply reachable_Invariant with (random := drawsLowAt [40%nat]);
          apply reachable_startup|].
  split; [apply reachable_Invariant
            with (random := drawsLowAt [9; 10; 11; 59; 60; 61; 109; 110; 111]%nat);
          apply reachable_startup|].
  split; [unfold inRange, ROWS, COLS; lia|].
  split; [unfold inRange, ROWS, COLS; lia|].
  vm_compute. split_and!; reflexivity.
Qed.

(** C3.  For a cell of value 0 or 1, [evolve] stores the B3/S23 value for
    the count that [countNeighbors] gives for the cell: a live cell stays
    alive with a count of 2 or 3 and dies otherwise, a dead cell is born
    with a count of 3 and stays dead otherwise. *)
Theorem evolve_applies_B3S23 (w : World) (i j v : Z) :
  0 ≤ i → 0 ≤ j →
  currentCellState (state w) !! cellId i j = Some v →
  v = 0 ∨ v = 1 →
  ∃ n, countNeighbors (state w) (Int i) (Int j) = Int n ∧
       currentCellState (state (evolve w)) !! cellId i j =
         Some (if decide (v = 1)
               then (if decide (n = 2 ∨ n = 3) then 1 else 0)
               else (if decide (n = 3) then 1 else 0)).
Proof.
  intros Hi Hj Hv Hbin.
  exists (neighborhoodSum (state w) (Int i) (Int j) - v).
  assert (countNeighbors (state w) (Int i) (Int j)
          = Int (neighborhoodSum (state w) (Int i) (Int j) - v)) as Hcount.
  { unfold countNeighbors. fold (cellId i j). by rewrite Hv. }
  split; [done|].
  rewrite evolve_current_lookup, Hv, sumOfNeighborsAt_cellId, Hcount by done.
  by rewrite nextValue_B3S23.
Qed.

(** The middle cell of a blinker: alive, and kept alive or not by its count. *)
Lemma evolve_applies_B3S23_witness :
  currentCellState (state blinkerWorld) !! cellId 1 1 = Some 1 ∧
  ∃ n, countNeighbors (state blinkerWorld) (Int 1) (Int 1) = Int n ∧
       currentCellState (state (evolve blinkerWorld)) !! cellId 1 1 =
         Some (if decide (1 = 1)
               then (if decide (n = 2 ∨ n = 3) then 1 else 0)
               else (if decide (n = 3) then 1 else 0)).
Proof.
  assert (currentCellState (state blinkerWorld) !! cellId 1 1 = Some 1) as Hv
    by (vm_compute; reflexivity).
  split; [exact Hv|].
  apply (evolve_applies_B3S23 blinkerWorld 1 1 1); [lia|lia|exact Hv|by right].
Defined.

(** C4.  One call of [evolve] works on one snapshot: after any number [n]
    of iterations of its first loop the current table is still the one
    the call started with, so every neighbour sum is the sum over that
    table; every cell gets the value computed from that table; and the
    table installed at the end is the next table as the loop leaves it
    after the last iteration. *)
Theorem evolve_reads_one_snapshot (w : World) :
  let entries := map_to_list (currentCellState (state w)) in
  (∀ n : nat,
     let st := foldl evolveEntry (state w) (take n entries) in
     currentCellState st = currentCellState (state w) ∧
     ∀ k, sumOfNeighborsAt st k = sumOfNeighborsAt (state w) k) ∧
  (∀ k v,
     currentCellState (state w) !! k = Some v →
     currentCellState (state (evolve w)) !! k =
       Some (nextValue v (sumOfNeighborsAt (state w) k))) ∧
  currentCellState (state (evolve w)) =
    nextCellState (foldl evolveEntry (state w) entries).
Proof.
  intros entries. split_and!.
  - intros n st.
    assert (currentCellState st = currentCellState (state w)) as Hcur
      by apply evolve_loop_current.
    split; [done|]. intros k. by apply sumOfNeighborsAt_current.
  - intros k v Hk. by rewrite evolve_current_lookup, Hk.
  - reflexivity.
Qed.

(** C5.  The chance is not the probability of a live cell.  The field is
    documented as a percentage from 1 to 100, and with a chance of one
    percent every cell would be alive with probability 1/100, so some
    draw of [Math.random] would have to light a cell; but the number a
    draw is turned into is never below 1, and whatever values of [[0, 1)]
    the draws take, no cell of the grid comes out alive. *)
Lemma one_percent_never_alive :
  ¬ ∃ (random : nat → Q) (i j : Z),
      (∀ n, 0 <= random n ∧ random n < 1)%Q ∧ inRange i j ∧
      currentCellState (state (startup random "1" "100")) !! cellId i j
        = Some 1.
Proof.
  intros (random & i & j & Hrange & Hij & Hlit).
  rewrite startup_one_percent_dead in Hlit; [discriminate|exact Hij|].
  apply Hrange.
Qed.

(** C6.  The handlers test the value with the unanchored pattern
    [/[0-9]+/], which accepts any value holding a digit: ["-5"] and ["1a"]
    are not made of digits only and still replace the stored numbers, by
    [-5] and by [NaN]. *)
Theorem onkeyup_accepts_non_digit_value :
  let st := initialState "50" "100" in
  digit_only "-5" = false ∧ digit_only "1a" = false ∧
  chanceToBeLivingCell st = Int 50 ∧ progressionSpeed st = Int 100 ∧
  progressionSpeed (speedProgressionInput_onkeyup "-5" st) = Int (-5) ∧
  progressionSpeed (speedProgressionInput_onkeyup "1a" st) = NaN ∧
  chanceToBeLivingCell (percentCellIsAliveInput_onkeyup "-5" st) = Int (-5) ∧
  chanceToBeLivingCell (percentCellIsAliveInput_onkeyup "1a" st) = NaN.
Proof. cbv zeta. split_and!; reflexivity. Qed.

(** C7.  In every world of a session [clearUniverse] leaves every cell of
    the grid, and every entry of the table, at 0 and the generation at 0,
    keeps the set of keys, and doing it twice is doing it once. *)
Theorem clearUniverse_all_dead_idempotent (random : nat → Q) (w : World) :
  reachable random w →
  (∀ i j, inRange i j →
          currentCellState (state (clearUniverse w)) !! cellId i j = Some 0) ∧
  (∀ k v, currentCellState (state (clearUniverse w)) !! k = Some v → v = 0) ∧
  generation (state (clearUniverse w)) = 0 ∧
  dom (currentCellState (state (clearUniverse w)))
    = dom (currentCellState (state w)) ∧
  clearUniverse (clearUniverse w) = clearUniverse w.
Proof.
  intros Hreach. pose proof (reachable_Invariant random w Hreach) as Hinv.
  pose proof (clearUniverse_Invariant w Hinv) as Hinv'.
  destruct Hinv as [Hkeys _ _ _ Hall]. destruct Hinv' as [Hkeys' _ _ _ _].
  split_and!.
  - intros i j Hij. rewrite clearUniverse_lookup.
    by rewrite decide_True by by apply Hall.
  - intros k v. rewrite clearUniverse_lookup.
    destruct (decide (k ∈ id <$> cells w)) as [_|Hk]; [congruence|].
    intros Hv. destruct Hk.
    destruct (proj1 (Hkeys k)) as (i & j & Hij & ->); [by eauto|].
    by apply Hall.
  - by rewrite clearUniverse_state.
  - apply set_eq. intros k. rewrite !elem_of_dom.
    unfold gridKeys in Hkeys, Hkeys'. by rewrite Hkeys, Hkeys'.
  - apply clearUniverse_idempotent.
Qed.

(** Clearing after a blinker has run for one tick. *)
Lemma clearUniverse_all_dead_idempotent_witness :
  reachable (drawsLowAt [50; 51; 52]%nat) (tick (handleStateProgression 1 blinkerWorld)) ∧
  (∀ i j, inRange i j →
     currentCellState
       (state (clearUniverse (tick (handleStateProgression 1 blinkerWorld))))
       !! cellId i j = Some 0) ∧
  (∀ k v,
     currentCellState
       (state (clearUniverse (tick (handleStateProgression 1 blinkerWorld))))
       !! k = Some v → v = 0) ∧
  generation
    (state (clearUniverse (tick (handleStateProgression 1 blinkerWorld)))) = 0 ∧
  dom (currentCellState
         (state (clearUniverse (tick (handleStateProgression 1 blinkerWorld)))))
    = dom (currentCellState
             (state (tick (handleStateProgression 1 blinkerWorld)))) ∧
  clearUniverse
    (clearUniverse (tick (handleStateProgression 1 blinkerWorld)))
    = clearUniverse (tick (handleStateProgression 1 blinkerWorld)).
Proof.
  split; [exact blinkerWorld_ticked_reachable|].
  apply (clearUniverse_all_dead_idempotent _ _ blinkerWorld_ticked_reachable).
Defined.

(** C8.  When the stored chance is falsy (0 or [NaN]), [randomize] leaves
    every cell of the grid at 0, and draws no random number. *)
Theorem randomize_falsy_all_dead (random : nat → Q) (w : World) :
  truthy (chanceToBeLivingCell (state w)) = false →
  (∀ i j, inRange i j →
          currentCellState (state (randomize random w)) !! cellId i j = Some 0) ∧
  randomCalls (randomize random w) = randomCalls w.
Proof.
  intros Hfalsy.
  assert (chanceToBeLivingCell (state (clearUniverse w))
          = chanceToBeLivingCell (state w)) as Hchance
    by (by rewrite clearUniverse_state).
  unfold randomize. split.
  - intros i j Hij. rewrite initializeUniverse_lookup by done.
    by rewrite Hchance, litAt_falsy.
  - rewrite initializeUniverse_randomCalls, Hchance, Hfalsy. simpl. lia.
Qed.

(** The user types 0 in the chance field of a page that shows a blinker. *)
Lemma randomize_falsy_all_dead_witness :
  let w := set_state (percentCellIsAliveInput_onkeyup "0" (state blinkerWorld))
             blinkerWorld in
  truthy (chanceToBeLivingCell (state w)) = false ∧
  (∀ i j, inRange i j →
     currentCellState (state (randomize (drawsLowAt [50; 51; 52]%nat) w))
       !! cellId i j = Some 0) ∧
  randomCalls (randomize (drawsLowAt [50; 51; 52]%nat) w) = randomCalls w.
Proof.
  intros w.
  assert (truthy (chanceToBeLivingCell (state w)) = false) as Hfalsy
    by (vm_compute; reflexivity).
  split; [exact Hfalsy|].
  exact (randomize_falsy_all_dead (drawsLowAt [50; 51; 52]%nat) w Hfalsy).
Defined.

(** C9.  In every world of a session (after the initialization at
    startup, after every tick of the timer, every clear and every
    randomize) the current table has an entry for each coordinate of the
    grid and for no other key, every entry is 0 or 1, and distinct
    coordinates have distinct keys. *)
Theorem reachable_grid_model (random : nat → Q) (w : World) :
  reachable random w →
  gridKeys (currentCellState (state w)) ∧
  binaryValues (currentCellState (state w)) ∧
  ∀ i j i' j', cellId i j = cellId i' j' → i = i' ∧ j = j'.
Proof.
  intros Hreach. destruct (reachable_Invariant random w Hreach).
  split_and!; [done..|]. intros i j i' j'. apply cellId_inj.
Qed.

(** A lone cell, one tick of the timer, then a clear. *)
Lemma reachable_grid_model_witness :
  let w := clearUniverse (tick (handleStateProgression 1 loneCellWorld)) in
  reachable (drawsLowAt [40%nat]) w ∧
  gridKeys (currentCellState (state w)) ∧
  binaryValues (currentCellState (state w)) ∧
  ∀ i j i' j', cellId i j = cellId i' j' → i = i' ∧ j = j'.
Proof.
  intros w.
  assert (reachable (drawsLowAt [40%nat]) w) as Hreach.
  { apply (reachable_step _ (tick (handleStateProgression 1 loneCellWorld)));
      [|apply step_clear].
    apply (reachable_step _ (handleStateProgression 1 loneCellWorld)).
    - apply (reachable_step _ loneCellWorld).
      + apply reachable_startup.
      + apply (step_toggle _ 1).
    - apply step_tick. vm_compute. reflexivity. }
  split; [exact Hreach|].
  exact (reachable_grid_model (drawsLowAt [40%nat]) w Hreach).
Defined.

(** C10.  [evolve] is a function of the current table alone: from two
    worlds of two sessions (whatever their draws) that hold the same
    current table it produces the same table, and it draws no random
    number. *)
Theorem evolve_deterministic (random1 random2 : nat → Q) (w1 w2 : World) :
  reachable random1 w1 → reachable random2 w2 →
  currentCellState (state w1) = currentCellState (state w2) →
  currentCellState (state (evolve w1)) = currentCellState (state (evolve w2)) ∧
  randomCalls (evolve w1) = randomCalls w1 ∧
  randomCalls (evolve w2) = randomCalls w2.
Proof.
  intros Hreach1 Hreach2 Hcur.
  destruct (reachable_Invariant random1 w1 Hreach1) as [_ _ Hnext1 _ _].
  destruct (reachable_Invariant random2 w2 Hreach2) as [_ _ Hnext2 _ _].
  split_and!; [|apply evolve_randomCalls..].
  apply evolve_current_ext; [done|]. by rewrite Hnext1, Hnext2.
Qed.

(** The blinker as loaded, and the blinker after the speed was edited and
    the run started. *)
Lemma evolve_deterministic_witness :
  let w1 := blinkerWorld in
  let w2 := handleStateProgression 1
              (set_state (speedProgressionInput_onkeyup "250" (state blinkerWorld))
                 blinkerWorld) in
  reachable (drawsLowAt [50; 51; 52]%nat) w1 ∧
  reachable (drawsLowAt [50; 51; 52]%nat) w2 ∧
  currentCellState (state w1) = currentCellState (state w2) ∧
  currentCellState (state (evolve w1)) = currentCellState (state (evolve w2)) ∧
  randomCalls (evolve w1) = randomCalls w1 ∧
  randomCalls (evolve w2) = randomCalls w2.
Proof.
  intros w1 w2.
  assert (reachable (drawsLowAt [50; 51; 52]%nat) w1) as Hreach1
    by apply blinkerWorld_reachable.
  assert (reachable (drawsLowAt [50; 51; 52]%nat) w2) as Hreach2.
  { apply (reachable_step _
             (set_state (speedProgressionInput_onkeyup "250" (state blinkerWorld))
                blinkerWorld)).
    - apply (reachable_step _ blinkerWorld); [exact Hreach1|].
      apply (step_speed _ "250").
    - apply (step_toggle _ 1). }
  assert (currentCellState (state w1) = currentCellState (state w2)) as Hcur.
  { unfold w1, w2. rewrite handleStateProgression_current, set_state_state.
    rewrite (proj1 (onkeyup_current "250" (state blinkerWorld))).
    reflexivity. }
  split; [exact Hreach1|]. split; [exact Hreach2|]. split; [exact Hcur|].
  exact (evolve_deterministic _ _ w1 w2 Hreach1 Hreach2 Hcur).
Defined.

(** * Further properties of the script *)

(** ** Interior cells *)

Lemma neighborhoodSum_interior st r c :
  1 ≤ r ≤ ROWS - 2 → 1 ≤ c ≤ ROWS - 2 →
  neighborhoodSum st (Int r) (Int c) =
    adjacentSum (currentCellState st) r c
    + own_or_zero (currentCellState st) (cellId r c).
Proof.
  intros Hr Hc. rewrite neighborhoodSum_Int. cbv zeta.
  rewrite !rem_shifted by (unfold ROWS, COLS in *; lia).
  unfold adjacentSum.
  replace (r + -1) with (r - 1) by lia. replace (c + -1) with (c - 1) by lia.
  rewrite !Z.add_0_r. lia.
Qed.


(** ** Ticks *)

Lemma evolve_frame w :
  state (evolve w) =
    set_nextCellState ∅
      (set_currentCellState (currentCellState (state (evolve w))) (state w)).
Proof.
  unfold evolve. simpl. rewrite evolve_loop_frame. by destruct (state w).
Qed.

Lemma tick_fields w :
  generation (state (tick w)) = generation (state w) + 1 ∧
  isProgressing (state (tick w)) = isProgressing (state w) ∧
  internalN (state (tick w)) = internalN (state w) ∧
  chanceToBeLivingCell (state (tick w)) = chanceToBeLivingCell (state w) ∧
  progressionSpeed (state (tick w)) = progressionSpeed (state w).
Proof. unfold tick. rewrite evolve_frame. done. Qed.

Lemma ticks_fields n w :
  generation (state (ticks n w)) = generation (state w) + Z.of_nat n ∧
  isProgressing (state (ticks n w)) = isProgressing (state w) ∧
  internalN (state (ticks n w)) = internalN (state w) ∧
  chanceToBeLivingCell (state (ticks n w)) = chanceToBeLivingCell (state w) ∧
  progressionSpeed (state (ticks n w)) = progressionSpeed (state w).
Proof.
  induction n as [|n (IHg & IHp & IHn & IHc & IHs)].
  - simpl. split_and!; [lia|done..].
  - change (ticks (S n) w) with (tick (ticks n w)).
    destruct (tick_fields (ticks n w)) as (Hg & Hp & Hn & Hc & Hs).
    rewrite Hg, Hp, Hn, Hc, Hs, IHg, IHp, IHn, IHc, IHs.
    split_and!; [lia|done..].
Qed.

(** ** The page *)

Lemma randomize_state random w :
  state (randomize random w) =
    set_currentCellState (currentCellState (state (randomize random w)))
      (set_generation 0 (state w)).
Proof.
  unfold randomize.
  rewrite (init_state _ _ _ _
             (initializeUniverse_InitUpTo random (clearUniverse w))) at 1.
  generalize (currentCellState
                (state (initializeUniverse random (clearUniverse w)))).
  intros table. rewrite (clearUniverse_state w).
  generalize (currentCellState (state (clearUniverse w))). intros table'.
  by destruct (state w).
Qed.

Lemma handleStateProgression_fields timer w :
  isProgressing (state (handleStateProgression timer w))
    = negb (isProgressing (state w)) ∧
  internalN (state (handleStateProgression timer w))
    = (if isProgressing (state w) then internalN (state w) else timer) ∧
  generation (state (handleStateProgression timer w)) = generation (state w).
Proof.
  unfold handleStateProgression. simpl. by destruct (isProgressing (state w)).
Qed.

Ltac page_fields :=
  unfold tick_page, on_world, loadedPage, clearInterval, setInterval;
  cbn [world intervals handles startButtonText generationDisplayText].

(** A callback that keeps the run flag, the handle and the generation, or
    resets the generation, keeps the invariant of the page. *)
Lemma on_world_PageInvariant buttonText f p :
  isProgressing (state (f (world p))) = isProgressing (state (world p)) →
  internalN (state (f (world p))) = internalN (state (world p)) →
  generation (state (f (world p))) = generation (state (world p))
  ∨ generation (state (f (world p))) = 0 →
  PageInvariant buttonText p → PageInvariant buttonText (on_world f p).
Proof.
  intros Hp Hn Hg [Hrun Hstop Hl1 Hl2 Hd].
  split; page_fields; rewrite ?Hp, ?Hn; try done.
  destruct Hg as [-> | ->]; [done|by right].
Qed.

Section PageInvariants.
Variable random : nat → Q.
Variables buttonText displayText : string.

Lemma startup_fields percentValue speedValue :
  isProgressing (state (startup random percentValue speedValue)) = false ∧
  generation (state (startup random percentValue speedValue)) = 0 ∧
  internalN (state (startup random percentValue speedValue)) = 0.
Proof.
  unfold startup.
  rewrite (init_state _ _ _ _
             (initializeUniverse_InitUpTo random
                (mkWorld (initialState percentValue speedValue) [] 0))).
  done.
Qed.

Lemma fresh_PageInvariant w :
  isProgressing (state w) = false → generation (state w) = 0 →
  PageInvariant buttonText (mkPage w [] 0 buttonText displayText).
Proof.
  intros Hp Hg. split; page_fields; rewrite ?Hp, ?Hg; try done; by right.
Qed.

Lemma loadedPage_PageInvariant percentValue speedValue :
  PageInvariant buttonText
    (loadedPage random percentValue speedValue buttonText displayText).
Proof.
  destruct (startup_fields percentValue speedValue) as (Hp & Hg & _).
  by apply fresh_PageInvariant.
Qed.

Lemma page_step_PageInvariant p p' :
  page_step random p p' → PageInvariant buttonText p → PageInvariant buttonText p'.
Proof.
  intros Hstep Hinv.
  destruct Hstep as [handle delay p Harmed|p|p|p|value p|value p].
  - destruct (tick_fields (world p)) as (Hg & Hp & Hn & _).
    destruct Hinv as [Hrun Hstop Hl1 Hl2 Hd].
    split; page_fields; rewrite ?Hp, ?Hn, ?Hg; try done. by left.
  - destruct Hinv as [Hrun Hstop Hl1 Hl2 Hd].
    unfold handleStateProgression_page.
    destruct (isProgressing (state (world p))) eqn:Hprog; cbn [negb]; page_fields.
    + destruct (Hrun eq_refl) as [delay Harmed].
      destruct (handleStateProgression_fields (internalN (state (world p))) (world p))
        as (Hp & Hn & Hg).
      rewrite Hprog in Hp, Hn. cbn [negb] in Hp.
      split; page_fields; rewrite ?Hp, ?Hn, ?Hg; try done.
      * intros _. rewrite Harmed. cbn. by rewrite decide_False by (by intros ?).
      * intros _. by left.
    + destruct (handleStateProgression_fields (handles p + 1) (world p))
        as (Hp & Hn & Hg).
      rewrite Hprog in Hp, Hn. cbn [negb] in Hp.
      split; page_fields; rewrite ?Hp, ?Hn, ?Hg; try done.
      intros _. rewrite (Hstop eq_refl). by eexists.
  - apply on_world_PageInvariant; [..|done];
      rewrite clearUniverse_state; simpl; auto.
  - apply on_world_PageInvariant; [..|done];
      rewrite randomize_state; simpl; auto.
  - apply on_world_PageInvariant; [..|done]; cbn [state set_state];
      unfold speedProgressionInput_onkeyup;
      destruct (digits_regex_test value); simpl; auto.
  - apply on_world_PageInvariant; [..|done]; cbn [state set_state];
      unfold percentCellIsAliveInput_onkeyup;
      destruct (digits_regex_test value); simpl; auto.
Qed.

Lemma page_reachable_PageInvariant p :
  page_reachable random buttonText displayText p → PageInvariant buttonText p.
Proof.
  induction 1 as [percentValue speedValue|p p' _ IH Hstep].
  - apply loadedPage_PageInvariant.
  - by apply (page_step_PageInvariant p).
Qed.

Lemma page_reachable_world p :
  page_reachable random buttonText displayText p → reachable random (world p).
Proof.
  induction 1 as [percentValue speedValue|p p' Hreach IH Hstep].
  - apply reachable_startup.
  - apply (reachable_step random (world p)); [done|].
    pose proof (page_reachable_PageInvariant p Hreach) as [_ Hstop _ _ _].
    destruct Hstep as [handle delay p Harmed|p|p|p|value p|value p]; page_fields.
    + apply step_tick. destruct (isProgressing (state (world p))); [done|].
      rewrite (Hstop eq_refl) in Harmed. by apply not_elem_of_nil in Harmed.
    + unfold handleStateProgression_page.
      destruct (isProgressing (state (world p))); cbn [negb]; page_fields;
        apply step_toggle.
    + apply step_clear.
    + apply step_randomize.
    + apply step_speed.
    + apply step_percent.
Qed.

End PageInvariants.

(** ** The cells of the document *)

Section Document.
Variable random : nat → Q.

Lemma initializeCell_cells i j w w' :
  0 ≤ i → 0 ≤ j < COLS →
  InitUpTo random w (i * COLS + j) w' →
  cells (initializeCell random i j w')
    = cells w' ++ [cellAt random w (i * COLS + j)].
Proof.
  intros Hi Hj [Hst Hcalls _ _ _].
  rewrite initializeCell_unfold. cbv zeta. cbn [cells]. f_equal.
  unfold cellAt. f_equal.
  assert ((i * COLS + j) / COLS = i ∧ (i * COLS + j) mod COLS = j) as [-> ->].
  { unfold COLS in *. split.
    - rewrite Z.add_comm, Z.div_add by lia. rewrite Z.div_small by lia. lia.
    - rewrite Z.add_comm, Z.mod_add by lia. by apply Z.mod_small. }
  assert (chanceToBeLivingCell (state w') = chanceToBeLivingCell (state w))
    as -> by (by rewrite Hst).
  rewrite Hcalls. unfold litAt.
  destruct (truthy (chanceToBeLivingCell (state w))); [|done].
  by rewrite Nat.add_0_r || reflexivity.
Qed.

Lemma initializeUniverse_cells w :
  cells (initializeUniverse random w)
    = cells w ++ (cellAt random w <$> seqZ 0 (ROWS * COLS)).
Proof.
  unfold initializeUniverse.
  cut (InitUpTo random w (ROWS * COLS)
         (for_range 0 ROWS
            (λ i, for_range 0 COLS (λ j, initializeCell random i j)) w)
       ∧ cells (for_range 0 ROWS
            (λ i, for_range 0 COLS (λ j, initializeCell random i j)) w)
         = cells w ++ (cellAt random w <$> seqZ 0 (ROWS * COLS))).
  { by intros [_ ?]. }
  apply (for_range_ind
           (λ i w', InitUpTo random w (i * COLS) w' ∧
                    cells w' = cells w ++ (cellAt random w <$> seqZ 0 (i * COLS))));
    [done| |].
  { split; [apply InitUpTo_start|]. by rewrite app_nil_r. }
  intros i w1 Hi Hrow.
  replace ((i + 1) * COLS) with (i * COLS + COLS) by lia.
  apply (for_range_ind
           (λ j w', InitUpTo random w (i * COLS + j) w' ∧
                    cells w' = cells w ++ (cellAt random w <$> seqZ 0 (i * COLS + j))));
    [done| |].
  { by rewrite Z.add_0_r. }
  intros j w2 Hj [Hinit Hcells]. rewrite Z.add_assoc. split.
  - apply InitUpTo_step; [lia|lia|done].
  - rewrite (initializeCell_cells i j w) by (done || lia).
    rewrite Hcells, <- app_assoc. f_equal.
    rewrite (seqZ_app 0 (i * COLS + j) 1) by (unfold COLS in *; lia).
    rewrite fmap_app. f_equal.
Qed.

End Document.

Lemma cellAt_ids random w :
  id <$> (cellAt random w <$> seqZ 0 (ROWS * COLS)) = gridIds.
Proof.
  rewrite <- list_fmap_compose.
  change (id ∘ cellAt random w) with (λ t, cellId (t / COLS) (t mod COLS)).
  vm_compute. reflexivity.
Qed.


Lemma gridIds_length : length gridIds = 1500%nat.
Proof. vm_compute. reflexivity. Qed.


(** ** What the document shows *)

Lemma newestCell_elem key l cell :
  newestCell key l = Some cell → cell ∈ l ∧ id cell = key.
Proof.
  unfold newestCell. intros Hlast%last_Some_elem_of.
  apply list_elem_of_filter in Hlast. tauto.
Qed.

Lemma newestCell_is_Some key l :
  key ∈ id <$> l → is_Some (newestCell key l).
Proof.
  intros (cell & -> & Hcell)%list_elem_of_fmap.
  unfold newestCell. apply last_is_Some. intros Hnil.
  by apply (filter_nil_not_elem_of _ _ cell Hnil).
Qed.

Lemma ViewOk_all_cells w :
  (∀ cell, cell ∈ cells w →
     (backgroundColor cell = LIGHTBLUE
      ↔ currentCellState (state w) !! id cell = Some 1)) →
  ViewOk w.
Proof.
  intros Hall key cell [Hcell <-]%newestCell_elem. by apply Hall.
Qed.

Lemma cellAt_shows random w t :
  0 ≤ t < ROWS * COLS →
  backgroundColor (cellAt random w t) = LIGHTBLUE
  ↔ currentCellState (state (initializeUniverse random w))
      !! id (cellAt random w t) = Some 1.
Proof.
  intros Ht. unfold cellAt. cbn [id backgroundColor].
  assert (inRange (t / COLS) (t mod COLS)) as Hij.
  { unfold inRange, ROWS, COLS in *.
    pose proof (Z.mod_pos_bound t 50). pose proof (Z.div_mod t 50).
    split; [|lia]. split; [apply Z.div_pos; lia|].
    apply Z.div_lt_upper_bound; lia. }
  rewrite initializeUniverse_lookup by done.
  assert (drawIndex w (t / COLS) (t mod COLS)
          = (randomCalls w + Z.to_nat t)%nat) as ->.
  { unfold drawIndex. do 2 f_equal. unfold COLS.
    pose proof (Z.div_mod t 50). lia. }
  destruct (litAt random _ _); [done|].
  split; [discriminate|discriminate].
Qed.

Lemma initializeUniverse_ViewOk random w :
  (∀ cell, cell ∈ cells w → ∃ i j, inRange i j ∧ id cell = cellId i j) →
  ViewOk (initializeUniverse random w).
Proof.
  intros Hold key cell. unfold newestCell.
  rewrite initializeUniverse_cells, filter_app.
  intros [Hnew|[Hnone Hlast]]%last_app_Some.
  - apply last_Some_elem_of, list_elem_of_filter in Hnew as [<- Hnew].
    apply list_elem_of_fmap in Hnew as (t & -> & Ht%elem_of_seqZ).
    apply cellAt_shows. lia.
  - exfalso. apply last_None in Hnone.
    apply last_Some_elem_of, list_elem_of_filter in Hlast as [<- Hcell].
    destruct (Hold cell Hcell) as (i & j & Hij & Hid).
    apply (filter_nil_not_elem_of _ _ (cellAt random w (i * COLS + j)) Hnone).
    + rewrite Hid. unfold cellAt. cbn [id]. unfold inRange, COLS in *.
      f_equal.
      * rewrite Z.add_comm, Z.div_add by lia. rewrite Z.div_small by lia. lia.
      * rewrite Z.add_comm, Z.mod_add by lia. apply Z.mod_small. lia.
    + apply list_elem_of_fmap_2, elem_of_seqZ.
      unfold inRange, ROWS, COLS in *. lia.
Qed.

Lemma white_not_lightblue : WHITE ≠ LIGHTBLUE.
Proof. discriminate. Qed.

Lemma evolve_ViewOk w : Invariant w → ViewOk (evolve w).
Proof.
  intros Hinv. pose proof (evolve_Invariant w Hinv) as [_ Hvalues _ _ _].
  apply ViewOk_all_cells. intros cell Hcell.
  change (cells (evolve w))
    with (paint (currentCellState (state (evolve w))) <$> cells w) in Hcell.
  apply list_elem_of_fmap in Hcell as (cell0 & -> & _).
  unfold paint.
  destruct (currentCellState (state (evolve w)) !! id cell0) as [v|] eqn:Hv.
  - case_bool_decide as Hzero; cbn [id backgroundColor]; rewrite Hv.
    + subst v. split; [|discriminate]. intros Heq.
      by destruct white_not_lightblue.
    + destruct (Hvalues _ _ Hv) as [-> | ->]; done.
  - cbn [id backgroundColor]. rewrite Hv. split; [|discriminate].
    intros Heq. by destruct white_not_lightblue.
Qed.

Lemma clearUniverse_ViewOk w : ViewOk (clearUniverse w).
Proof.
  apply ViewOk_all_cells. intros cell Hcell.
  assert (id cell ∈ id <$> cells w) as Hid.
  { rewrite <- clearUniverse_cells_ids. by apply list_elem_of_fmap_2. }
  rewrite clearUniverse_lookup, decide_True by done.
  change (cells (clearUniverse w))
    with ((λ cell, mkCell (id cell) WHITE) <$> cells w) in Hcell.
  apply list_elem_of_fmap in Hcell as (cell0 & -> & _). cbn [backgroundColor].
  split; [|discriminate]. intros Heq. by destruct white_not_lightblue.
Qed.

Lemma reachable_ViewOk random w : reachable random w → ViewOk w.
Proof.
  induction 1 as [percentValue speedValue|w w' Hreach IH Hstep].
  - apply initializeUniverse_ViewOk. intros cell Hcell.
    by apply not_elem_of_nil in Hcell.
  - pose proof (reachable_Invariant random w Hreach) as Hinv.
    destruct Hstep as [w _|timer w|w|w|value w|value w].
    + apply evolve_ViewOk. by destruct Hinv.
    + unfold handleStateProgression. by destruct (isProgressing _).
    + apply clearUniverse_ViewOk.
    + apply initializeUniverse_ViewOk.
      apply (inv_cells_in _ (clearUniverse_Invariant w Hinv)).
    + unfold speedProgressionInput_onkeyup.
      by destruct (digits_regex_test value).
    + unfold percentCellIsAliveInput_onkeyup.
      by destruct (digits_regex_test value).
Qed.

(** ** Dead universes *)

Lemma own_or_zero_dead table key : allDead table → own_or_zero table key = 0.
Proof.
  intros Hdead. unfold own_or_zero.
  destruct (table !! key) as [v|] eqn:Hv; [|done]. by apply (Hdead key).
Qed.

Lemma tick_Invariant w : Invariant w → Invariant (tick w).
Proof. intros Hinv. apply evolve_Invariant. by destruct Hinv. Qed.

Lemma tick_current_lookup w k :
  currentCellState (state (tick w)) !! k =
    match currentCellState (state w) !! k with
    | Some v => Some (nextValue v (sumOfNeighborsAt (state w) k))
    | None => nextCellState (state w) !! k
    end.
Proof.
  unfold tick. rewrite evolve_current_lookup. cbn [state set_state].
  change (currentCellState (set_generation _ (state w)))
    with (currentCellState (state w)).
  change (nextCellState (set_generation _ (state w)))
    with (nextCellState (state w)).
  destruct (currentCellState (state w) !! k); [|done].
  by rewrite (sumOfNeighborsAt_current _ (state w)).
Qed.

Lemma tick_allDead w :
  Invariant w → allDead (currentCellState (state w)) →
  allDead (currentCellState (state (tick w))).
Proof.
  intros [Hkeys _ Hnext _ _] Hdead k v. rewrite tick_current_lookup, Hnext.
  destruct (currentCellState (state w) !! k) as [v0|] eqn:Hk;
    [|by rewrite lookup_empty].
  intros [= <-]. pose proof (Hdead k v0 Hk) as ->.
  destruct (proj1 (Hkeys k)) as (i & j & [Hi Hj] & ->); [by eauto|].
  rewrite sumOfNeighborsAt_cellId by lia.
  unfold countNeighbors. fold (cellId i j). rewrite Hk.
  rewrite neighborhoodSum_Int. cbv zeta.
  rewrite !own_or_zero_dead by done. reflexivity.
Qed.

Lemma clearUniverse_allDead w :
  Invariant w → allDead (currentCellState (state (clearUniverse w))).
Proof.
  intros [Hkeys _ _ _ Hall] k v. rewrite clearUniverse_lookup.
  destruct (decide (k ∈ id <$> cells w)) as [_|Hk]; [congruence|].
  intros Hv. destruct Hk.
  destruct (proj1 (Hkeys k)) as (i & j & Hij & ->); [by eauto|].
  by apply Hall.
Qed.

(** X1.  A universe without a live cell stays so: in a world of a session
    whose table holds only zeros, any number of ticks leaves a table of
    zeros. *)
Theorem dead_universe_stays_dead (random : nat → Q) (w : World) (n : nat) :
  reachable random w →
  allDead (currentCellState (state w)) →
  allDead (currentCellState (state (ticks n w))).
Proof.
  intros Hreach Hdead. pose proof (reachable_Invariant random w Hreach) as Hinv.
  cut (Invariant (ticks n w) ∧ allDead (currentCellState (state (ticks n w)))).
  { tauto. }
  induction n as [|n [IHinv IHdead]]; [done|].
  change (ticks (S n) w) with (tick (ticks n w)).
  split; [by apply tick_Invariant|by apply tick_allDead].
Qed.

Lemma blinkerWorld_cleared_reachable :
  reachable (drawsLowAt [50; 51; 52]%nat) (clearUniverse blinkerWorld).
Proof.
  apply (reachable_step _ blinkerWorld);
    [apply blinkerWorld_reachable|apply step_clear].
Qed.

Lemma blinkerWorld_cleared_dead :
  allDead (currentCellState (state (clearUniverse blinkerWorld))).
Proof.
  apply clearUniverse_allDead.
  apply (reachable_Invariant _ _ blinkerWorld_reachable).
Qed.

(** A cleared blinker, three ticks later. *)
Lemma dead_universe_stays_dead_witness :
  allDead (currentCellState (state (ticks 3 (clearUniverse blinkerWorld)))).
Proof.
  exact (dead_universe_stays_dead _ (clearUniverse blinkerWorld) 3
           blinkerWorld_cleared_reachable blinkerWorld_cleared_dead).
Defined.

(** ** Draws *)

Lemma drawsLowAt_range low n :
  (0 <= drawsLowAt low n)%Q ∧ (drawsLowAt low n < 1)%Q.
Proof. unfold drawsLowAt. by case_bool_decide. Qed.

Lemma litAt_full random z calls :
  (random calls < 1)%Q → 100 ≤ z → litAt random (Int z) calls = true.
Proof.
  intros Hu Hz. apply litAt_Int. split; [lia|].
  assert (inject_Z 100 <= inject_Z z)%Q as Hq by (by rewrite <- Zle_Qle).
  change (inject_Z 100) with 100%Q in Hq.
  lra.
Qed.

Lemma litAt_none random z calls :
  (0 <= random calls)%Q → z ≤ 1 → litAt random (Int z) calls = false.
Proof.
  intros Hu Hz. apply not_true_iff_false. intros [_ Hlt]%litAt_Int.
  assert (inject_Z z <= inject_Z 1)%Q as Hq by (by rewrite <- Zle_Qle).
  change (inject_Z 1) with 1%Q in Hq.
  lra.
Qed.

Lemma litAt_mono random z z' calls :
  (0 <= random calls)%Q → z ≤ z' →
  litAt random (Int z) calls = true → litAt random (Int z') calls = true.
Proof.
  intros Hu Hz [Hne Hlt]%litAt_Int. apply litAt_Int.
  assert (inject_Z z <= inject_Z z')%Q as Hq by (by rewrite <- Zle_Qle).
  split; [|lra].
  assert (inject_Z 1 < inject_Z z)%Q as Hone
    by (change (inject_Z 1) with 1%Q; lra).
  rewrite <- Zlt_Qlt in Hone. lia.
Qed.

(** X2.  The ends of the scale.  With draws in [[0, 1)], a chance of 100
    or more makes [initializeUniverse] fill the grid with live cells, and
    a chance of 1 or less (0 and the negative numbers included) leaves
    every cell dead. *)
Theorem initializeUniverse_extremes
    (random : nat → Q) (w : World) (z i j : Z) :
  (∀ n, (0 <= random n)%Q ∧ (random n < 1)%Q) →
  chanceToBeLivingCell (state w) = Int z →
  inRange i j →
  (100 ≤ z →
   currentCellState (state (initializeUniverse random w)) !! cellId i j
     = Some 1) ∧
  (z ≤ 1 →
   currentCellState (state (initializeUniverse random w)) !! cellId i j
     = Some 0).
Proof.
  intros Hrange Hchance Hij.
  rewrite initializeUniverse_lookup, Hchance by done.
  split; intros Hz.
  - by rewrite litAt_full by (apply Hrange || done).
  - by rewrite litAt_none by (apply Hrange || done).
Qed.

(** The chance field holding 100, and the cell [(3, 7)]. *)
Lemma initializeUniverse_extremes_witness :
  (100 ≤ 100 →
   currentCellState
     (state (initializeUniverse (drawsLowAt [40%nat])
               (mkWorld (initialState "100" "100") [] 0))) !! cellId 3 7
     = Some 1) ∧
  (100 ≤ 1 →
   currentCellState
     (state (initializeUniverse (drawsLowAt [40%nat])
               (mkWorld (initialState "100" "100") [] 0))) !! cellId 3 7
     = Some 0).
Proof.
  apply (initializeUniverse_extremes (drawsLowAt [40%nat])
           (mkWorld (initialState "100" "100") [] 0) 100 3 7).
  - apply drawsLowAt_range.
  - reflexivity.
  - unfold inRange, ROWS, COLS. lia.
Defined.

(** X3.  A larger chance never kills a cell: for draws that are not
    negative and the same number of earlier draws, a cell that
    [initializeUniverse] makes alive under the chance [z] is alive under
    every chance [z' ≥ z]. *)
Theorem initializeUniverse_monotone
    (random : nat → Q) (w w' : World) (z z' i j : Z) :
  (∀ n, (0 <= random n)%Q) →
  chanceToBeLivingCell (state w) = Int z →
  chanceToBeLivingCell (state w') = Int z' →
  randomCalls w = randomCalls w' →
  z ≤ z' →
  inRange i j →
  currentCellState (state (initializeUniverse random w)) !! cellId i j
    = Some 1 →
  currentCellState (state (initializeUniverse random w')) !! cellId i j
    = Some 1.
Proof.
  intros Hrange Hz Hz' Hcalls Hle Hij.
  rewrite !initializeUniverse_lookup, Hz, Hz' by done.
  unfold drawIndex. rewrite <- Hcalls.
  destruct (litAt random (Int z) _) eqn:Hlit; [|discriminate].
  intros _. by rewrite (litAt_mono random z z') by (apply Hrange || done).
Qed.

(** The lone cell of a chance of 50 under a chance of 80. *)
Lemma initializeUniverse_monotone_witness :
  currentCellState
    (state (initializeUniverse (drawsLowAt [40%nat])
              (mkWorld (initialState "80" "100") [] 0))) !! cellId 0 40
    = Some 1.
Proof.
  apply (initializeUniverse_monotone (drawsLowAt [40%nat])
           (mkWorld (initialState "50" "100") [] 0)
           (mkWorld (initialState "80" "100") [] 0) 50 80 0 40).
  - intros n. apply drawsLowAt_range.
  - reflexivity.
  - reflexivity.
  - reflexivity.
  - lia.
  - unfold inRange, ROWS, COLS. lia.
  - vm_compute. reflexivity.
Defined.

Lemma digit_only_pretty n : 0 ≤ n → digit_only (pretty n) = true.
Proof.
  intros Hn. unfold digit_only.
  pose proof (pretty_nonneg_nonempty n Hn).
  destruct (pretty n) eqn:Hp; [done|]. rewrite <- Hp.
  by apply pretty_nonneg_digits.
Qed.

(** X4.  Typing a number stores it and nothing else: on the decimal
    rendering of a natural number [n] up to 2^53 = 9007199254740992 (the
    integers a double holds exactly, so that [Number] reads [n] itself)
    either handler sets its own field to [n] and leaves the rest of
    [state] as it was. *)
Theorem onkeyup_stores_typed_number (n : Z) (st : State) :
  0 ≤ n ≤ 9007199254740992 →
  speedProgressionInput_onkeyup (pretty n) st = set_progressionSpeed (Int n) st ∧
  percentCellIsAliveInput_onkeyup (pretty n) st
    = set_chanceToBeLivingCell (Int n) st.
Proof.
  intros [Hn _].
  unfold speedProgressionInput_onkeyup, percentCellIsAliveInput_onkeyup.
  rewrite (digit_only_regex_test _ (digit_only_pretty n Hn)).
  by rewrite Number_pretty.
Qed.

(** The number 250 typed into both fields of a fresh state. *)
Lemma onkeyup_stores_typed_number_witness :
  speedProgressionInput_onkeyup (pretty 250) (initialState "50" "100")
    = set_progressionSpeed (Int 250) (initialState "50" "100") ∧
  percentCellIsAliveInput_onkeyup (pretty 250) (initialState "50" "100")
    = set_chanceToBeLivingCell (Int 250) (initialState "50" "100").
Proof.
  apply (onkeyup_stores_typed_number 250 (initialState "50" "100")). lia.
Defined.

(** X5.  Keys read back: the key [initializeUniverse] builds for the
    coordinates [(i, j)] splits at its underscore into two parts that
    [Number] reads back as [i] and [j], so the key [countNeighbors]
    rebuilds for the cell itself is the key [evolve] took from the
    table. *)
Theorem cellId_read_back (i j : Z) :
  0 ≤ i → 0 ≤ j →
  let parts := split "_" (cellId i j) in
  length parts = 2%nat ∧
  Number_opt (parts !! 0%nat) = Int i ∧
  Number_opt (parts !! 1%nat) = Int j ∧
  cellIdOf (Number_opt (parts !! 0%nat)) (Number_opt (parts !! 1%nat))
    = cellId i j.
Proof.
  intros Hi Hj parts. unfold parts. rewrite split_cellId. cbn [lookup list_lookup length Number_opt].
  by rewrite !Number_pretty.
Qed.

(** The key of the last cell of the grid. *)
Lemma cellId_read_back_witness :
  length (split "_" (cellId 29 49)) = 2%nat ∧
  Number_opt (split "_" (cellId 29 49) !! 0%nat) = Int 29 ∧
  Number_opt (split "_" (cellId 29 49) !! 1%nat) = Int 49 ∧
  cellIdOf (Number_opt (split "_" (cellId 29 49) !! 0%nat))
           (Number_opt (split "_" (cellId 29 49) !! 1%nat))
    = cellId 29 49.
Proof. apply (cellId_read_back 29 49); lia. Defined.

(** X6.  Away from the border of the square of the first [ROWS] columns,
    the count of [countNeighbors] is the sum of the eight entries around
    the cell. *)
Theorem countNeighbors_interior_adjacent (st : State) (r c v : Z) :
  1 ≤ r ≤ ROWS - 2 → 1 ≤ c ≤ ROWS - 2 →
  currentCellState st !! cellId r c = Some v →
  countNeighbors st (Int r) (Int c)
    = Int (adjacentSum (currentCellState st) r c).
Proof.
  intros Hr Hc Hv. unfold countNeighbors. fold (cellId r c). rewrite Hv.
  rewrite neighborhoodSum_interior by done.
  unfold own_or_zero. rewrite Hv. f_equal. lia.
Qed.

Lemma blinkerWorld_middle :
  currentCellState (state blinkerWorld) !! cellId 1 1 = Some 1.
Proof. vm_compute. reflexivity. Qed.

(** The middle cell of the blinker. *)
Lemma countNeighbors_interior_adjacent_witness :
  countNeighbors (state blinkerWorld) (Int 1) (Int 1)
    = Int (adjacentSum (currentCellState (state blinkerWorld)) 1 1).
Proof.
  apply (countNeighbors_interior_adjacent (state blinkerWorld) 1 1 1).
  - unfold ROWS. lia.
  - unfold ROWS. lia.
  - exact blinkerWorld_middle.
Defined.

(** X7.  Away from the border of the square of the first [ROWS] columns
    one call of [evolve] is one step of Conway's Life: the new value of a
    cell of value 0 or 1 is given by the rule on the sum of the eight
    entries around it. *)
Theorem evolve_interior_life (w : World) (r c v : Z) :
  1 ≤ r ≤ ROWS - 2 → 1 ≤ c ≤ ROWS - 2 →
  currentCellState (state w) !! cellId r c = Some v →
  v = 0 ∨ v = 1 →
  currentCellState (state (evolve w)) !! cellId r c
    = Some (lifeRule v (adjacentSum (currentCellState (state w)) r c)).
Proof.
  intros Hr Hc Hv Hbin.
  rewrite evolve_current_lookup, Hv, sumOfNeighborsAt_cellId by lia.
  unfold countNeighbors. fold (cellId r c). rewrite Hv.
  rewrite neighborhoodSum_interior by done.
  unfold own_or_zero at 1. rewrite Hv.
  replace (adjacentSum (currentCellState (state w)) r c + v - v)
    with (adjacentSum (currentCellState (state w)) r c) by lia.
  by rewrite nextValue_B3S23.
Qed.

(** The middle cell of the blinker. *)
Lemma evolve_interior_life_witness :
  currentCellState (state (evolve blinkerWorld)) !! cellId 1 1
    = Some (lifeRule 1 (adjacentSum (currentCellState (state blinkerWorld)) 1 1)).
Proof.
  apply (evolve_interior_life blinkerWorld 1 1 1).
  - unfold ROWS. lia.
  - unfold ROWS. lia.
  - exact blinkerWorld_middle.
  - by right.
Defined.

(** The table of the lone cell holds zeros and ones. *)
Lemma loneCellWorld_binary :
  binaryValues (currentCellState (state loneCellWorld)).
Proof.
  apply (reachable_Invariant (drawsLowAt [40%nat])). apply reachable_startup.
Qed.

Lemma loneCellWorld_count :
  countNeighbors (state loneCellWorld) (Int 0) (Int 40) = Int (-1).
Proof. vm_compute. reflexivity. Qed.

(** The lone cell at [(0, 40)], whose count is [-1]. *)
Lemma countNeighbors_bounds_witness :
  binaryValues (currentCellState (state loneCellWorld)) ∧
  countNeighbors (state loneCellWorld) (Int 0) (Int 40) = Int (-1) ∧
  -1 ≤ -1 ≤ 9.
Proof.
  split; [exact loneCellWorld_binary|]. split; [exact loneCellWorld_count|].
  exact (countNeighbors_bounds (state loneCellWorld) 0 40 (-1)
           loneCellWorld_binary loneCellWorld_count).
Defined.

(** X8.  The generation counts the ticks: [n] ticks add [n] to
    [state.generation] and leave the run flag, the timer handle, the
    chance and the speed as they were. *)
Theorem ticks_count_generations (n : nat) (w : World) :
  generation (state (ticks n w)) = generation (state w) + Z.of_nat n ∧
  isProgressing (state (ticks n w)) = isProgressing (state w) ∧
  internalN (state (ticks n w)) = internalN (state w) ∧
  chanceToBeLivingCell (state (ticks n w)) = chanceToBeLivingCell (state w) ∧
  progressionSpeed (state (ticks n w)) = progressionSpeed (state w).
Proof. apply ticks_fields. Qed.

(** X9.  One interval at most.  In every page of a session, while
    [state.isProgressing] is true exactly one interval is armed and
    [state.internalN] is its handle, and while it is false none is armed:
    a click on the button never arms a second interval and a stop always
    cancels the running one.  The button reads "Stop" while the run is on
    and, once clicked, "Start" while it is off. *)
Theorem page_one_interval
    (random : nat → Q) (buttonText displayText : string) (p : Page) :
  page_reachable random buttonText displayText p →
  (isProgressing (state (world p)) = true →
   (∃ delay, intervals p = [(internalN (state (world p)), delay)]) ∧
   startButtonText p = "Stop"%string) ∧
  (isProgressing (state (world p)) = false →
   intervals p = [] ∧
   (startButtonText p = "Start"%string ∨ startButtonText p = buttonText)).
Proof.
  intros Hreach.
  destruct (page_reachable_PageInvariant random buttonText displayText p Hreach)
    as [Hrun Hstop Hl1 Hl2 _].
  split; intros Hprog; auto.
Qed.

Lemma runningBlinkerPage_reachable :
  page_reachable (drawsLowAt [50; 51; 52]%nat) "Start" "0" runningBlinkerPage.
Proof.
  apply (page_reachable_step _ _ _
           (loadedPage (drawsLowAt [50; 51; 52]%nat) "50" "100" "Start" "0")).
  - apply page_reachable_loaded.
  - apply page_toggle.
Qed.

(** The blinker page after one click on the button. *)
Lemma page_one_interval_witness :
  (isProgressing (state (world runningBlinkerPage)) = true →
   (∃ delay, intervals runningBlinkerPage
             = [(internalN (state (world runningBlinkerPage)), delay)]) ∧
   startButtonText runningBlinkerPage = "Stop"%string) ∧
  (isProgressing (state (world runningBlinkerPage)) = false →
   intervals runningBlinkerPage = [] ∧
   (startButtonText runningBlinkerPage = "Start"%string
    ∨ startButtonText runningBlinkerPage = "Start"%string)).
Proof.
  exact (page_one_interval _ _ _ runningBlinkerPage runningBlinkerPage_reachable).
Defined.



(** X11.  [initializeUniverse] only adds to the document: the cells that
    were there stay in place, and one new cell for each coordinate of the
    grid follows them, row by row, 1500 in all. *)
Theorem initializeUniverse_appends_grid (random : nat → Q) (w : World) :
  ∃ new,
    cells (initializeUniverse random w) = cells w ++ new ∧
    id <$> new = gridIds ∧
    length new = 1500%nat.
Proof.
  exists (cellAt random w <$> seqZ 0 (ROWS * COLS)). split_and!.
  - apply initializeUniverse_cells.
  - apply cellAt_ids.
  - rewrite length_fmap, length_seqZ. reflexivity.
Qed.



(** X13.  What the page shows is the table: in every world of a session
    and for every coordinate of the grid, the cell created last under
    that [id] is light blue exactly when the entry of the table is 1. *)
Theorem reachable_newest_cell_shows_entry
    (random : nat → Q) (w : World) (i j : Z) :
  reachable random w → inRange i j →
  ∃ cell,
    newestCell (cellId i j) (cells w) = Some cell ∧
    (backgroundColor cell = LIGHTBLUE
     ↔ currentCellState (state w) !! cellId i j = Some 1).
Proof.
  intros Hreach Hij.
  pose proof (reachable_Invariant random w Hreach) as [_ _ _ _ Hall].
  destruct (newestCell_is_Some (cellId i j) (cells w) (Hall i j Hij))
    as [cell Hcell].
  exists cell. split; [done|].
  by apply (reachable_ViewOk random w Hreach).
Qed.

Lemma inRange_1_1 : inRange 1 1.
Proof. unfold inRange, ROWS, COLS. lia. Qed.

(** The middle cell of the blinker after a tick, a clear and a
    randomize. *)
Lemma reachable_newest_cell_shows_entry_witness :
  ∃ cell,
    newestCell (cellId 1 1)
      (cells (randomize (drawsLowAt [50; 51; 52]%nat)
                (tick (handleStateProgression 1 blinkerWorld)))) = Some cell ∧
    (backgroundColor cell = LIGHTBLUE
     ↔ currentCellState
         (state (randomize (drawsLowAt [50; 51; 52]%nat)
                   (tick (handleStateProgression 1 blinkerWorld))))
         !! cellId 1 1 = Some 1).
Proof.
  refine (reachable_newest_cell_shows_entry (drawsLowAt [50; 51; 52]%nat)
            (randomize (drawsLowAt [50; 51; 52]%nat)
               (tick (handleStateProgression 1 blinkerWorld))) 1 1 _ inRange_1_1).
  apply (reachable_step _ (tick (handleStateProgression 1 blinkerWorld))).
  - exact blinkerWorld_ticked_reachable.
  - apply step_randomize.
Defined.
